(** * The upload queue of the file uploader

    A shallow embedding of [src/services/uploadService.ts] (the transfer
    client) and of the [useUploadQueue] hook (the queue coordinator),
    with the properties of the queue stated over them.

    Conventions of the embedding:
    - the numbers the code computes with (ceilings, counters, attempts,
      HTTP statuses, times) are integers ([Z]);
    - values that come out of [JSON.parse] keep their dynamic type
      ([jsval]), because the service tests them with [||], [&&] and
      [!==] and converts them to strings; a conversion that throws is
      [None];
    - [Date.now()] and [generateId()] are inputs of the events that call
      them;
    - a promise is modelled by the outcome it settles with. *)

From stdpp Require Import gmap strings list pretty.

Set Warnings "-register-all,-clear-no-such-hyp".

Open Scope string_scope.
Open Scope list_scope.
Open Scope Z_scope.

(** ** JavaScript values *)

Module Js.

(** What [JSON.parse] returns, plus [undefined], which property access
    produces. An object is its list of fields in source order; a later
    duplicate key overrides an earlier one. The code never computes with
    a number of a response, it only tests and prints it: a number is kept
    as the text [String] prints for it, which is ["0"] for both zeros. *)
Inductive jsval :=
| VUndefined
| VNull
| VBool (b : bool)
| VNum (shown : string)
| VStr (s : string)
| VArr (elems : list jsval)
| VObj (fields : list (string * jsval)).

(** ToBoolean. *)
Definition truthy (v : jsval) : bool :=
  match v with
  | VUndefined | VNull => false
  | VBool b => b
  | VNum shown => negb (bool_decide (shown = "0"))
  | VStr s => negb (bool_decide (s = EmptyString))
  | VArr _ | VObj _ => true
  end.

(** [a || b] and [a && b] return one of their operands. *)
Definition or (a b : jsval) : jsval := if truthy a then a else b.
Definition and (a b : jsval) : jsval := if truthy a then b else a.

(** [v !== false]. *)
Definition not_false (v : jsval) : bool :=
  match v with
  | VBool false => false
  | _ => true
  end.

(** The last binding of [k] among the fields of an object. *)
Fixpoint field (k : string) (fs : list (string * jsval)) : jsval :=
  match fs with
  | [] => VUndefined
  | (k', v) :: rest =>
      match field k rest with
      | VUndefined => if bool_decide (k' = k) then v else VUndefined
      | later => later
      end
  end.

(** [v.k] for one of the keys the service reads. [None] is the TypeError
    raised on [null] and [undefined]; primitives and arrays have none of
    these keys. *)
Definition prop (v : jsval) (k : string) : option jsval :=
  match v with
  | VUndefined | VNull => None
  | VObj fs => Some (field k fs)
  | _ => Some VUndefined
  end.

(** [v?.k]. *)
Definition optprop (v : jsval) (k : string) : jsval :=
  default VUndefined (prop v k).

(** ToString, as the [Error] constructor applies it to its message;
    [None] is the TypeError it raises. An object of a response inherits
    [Object.prototype.toString] unless it has a key [toString] of its
    own, whose value is not a function: then [valueOf] is tried, which
    is either a key of its own and no function, or the inherited one,
    which returns the object, and the conversion throws. An array is
    joined with commas, [null] and [undefined] printing as nothing. *)
Fixpoint ToString (v : jsval) : option string :=
  match v with
  | VUndefined => Some "undefined"
  | VNull => Some "null"
  | VBool true => Some "true"
  | VBool false => Some "false"
  | VNum shown => Some shown
  | VStr s => Some s
  | VArr elems =>
      String.concat "," <$>
        mapM (fun e => match e with
                       | VUndefined | VNull => Some EmptyString
                       | _ => ToString e
                       end) elems
  | VObj fields =>
      if bool_decide ("toString" ∈ fields.*1) then None
      else Some "[object Object]"
  end.

(** The message of the TypeError of a conversion that throws, in the
    words of V8. *)
Definition typeErrorMessage : string :=
  "Cannot convert object to primitive value".

End Js.

Import Js.

(** ** constants.ts *)

Definition MAX_CONCURRENT_UPLOADS : Z := 2.
Definition MAX_RETRY_ATTEMPTS : Z := 3.

(** ** The transfer client: uploadService.ts *)

Module UploadService.

Definition RETRY_DELAYS : list Z := [1000; 2000; 4000].

(** [interface UploadError extends Error]. *)
Record UploadError := {
  message : string;
  retryable : jsval;
  code : jsval
}.

(** The message of [new Error(message)]: empty when the argument is
    [undefined], else its conversion to a string, which can throw. *)
Definition newError (msg : jsval) : option string :=
  match msg with
  | VUndefined => Some EmptyString
  | _ => ToString msg
  end.

(** [createUploadError]; [None] when [new Error(message)] throws. The
    type annotations of the parameters are erased: the callers in
    [onload] pass what the response holds. *)
Definition createUploadError (msg retry cd : jsval) : option UploadError :=
  m ← newError msg;
  Some {| message := m; retryable := retry; code := cd |}.

(** [createUploadError] on a message that is a string, which
    [new Error] takes as it is. *)
Definition uploadError (msg : string) (retry cd : jsval) : UploadError :=
  {| message := msg; retryable := retry; code := cd |}.

(** The [UploadResult] the service resolves with. *)
Record UploadResult := {
  success : bool;
  fileId : string;
  data : jsval;
  meta : jsval
}.

(** How one XMLHttpRequest ends. [response] is [JSON.parse] of the
    response text, [None] when it throws. *)
Inductive XhrOutcome :=
| Load (status : Z) (statusText : string) (response : option jsval)
| NetworkError
| Timeout
| SignalAbort
| SendThrows (msg : option string).

Definition httpMessage (status : Z) (statusText : string) : string :=
  "HTTP " +:+ pretty status +:+ ": " +:+ statusText.

Definition httpCode (status : Z) : string := "HTTP_" +:+ pretty status.

Definition parseError : UploadError :=
  uploadError "Invalid response format from server"
              (VBool false) (VStr "PARSE_ERROR").

(** The body of the [try] of [xhr.onload] for status 200; [None] when a
    property access or [createUploadError] throws. *)
Definition onload200 (fid : string) (response : jsval)
  : option (UploadResult + UploadError) :=
  ok ← prop response "success";
  d ← prop response "data";
  if truthy (and ok d) then
    m ← prop response "meta";
    Some (inl {| success := true; fileId := fid; data := d; meta := m |})
  else
    e ← prop response "error";
    let error := or e (VObj [("message", VStr "Unknown server error")]) in
    msg ← prop error "message";
    r ← prop error "retryable";
    c ← prop error "code";
    inr <$> createUploadError msg (or r (VBool false)) c.

(** The body of the [try] of [xhr.onload] for any other status. *)
Definition onloadError (status : Z) (statusText : string) (errorResponse : jsval)
  : option UploadError :=
  e ← prop errorResponse "error";
  let error := or e (VObj []) in
  msg ← prop error "message";
  r ← prop error "retryable";
  c ← prop error "code";
  createUploadError (or msg (VStr (httpMessage status statusText)))
                    (VBool (not_false r))
                    (or c (VStr (httpCode status))).

(** [uploadFile]: the result or the error of one attempt. What throws
    in a [try] of [onload] is caught by its [catch]. *)
Definition uploadFile (fid : string) (o : XhrOutcome)
  : UploadResult + UploadError :=
  match o with
  | Load status statusText response =>
      if status =? 200 then
        default (inr parseError) (response ≫= onload200 fid)
      else
        inr (default
               (uploadError (httpMessage status statusText)
                            (VBool (500 <=? status))
                            (VStr (httpCode status)))
               (response ≫= onloadError status statusText))
  | NetworkError =>
      inr (uploadError "Network error - please check your connection"
                       (VBool true) (VStr "NETWORK_ERROR"))
  | Timeout =>
      inr (uploadError "Upload timeout - file may be too large"
                       (VBool true) (VStr "TIMEOUT_ERROR"))
  | SignalAbort =>
      inr (uploadError "Upload cancelled by user"
                       (VBool false) (VStr "USER_CANCELLED"))
  | SendThrows msg =>
      inr (uploadError (default "Failed to start upload" msg)
                       (VBool false) (VStr "SEND_ERROR"))
  end.

(** What [uploadWithRetry] did: the value it returned or threw
    ([lastError], [null] when no attempt ran), the attempts it started
    and the delays it slept. *)
Record RetryRun := {
  settled : UploadResult + option UploadError;
  attempts : list Z;
  delays : list Z
}.

(** The [for] loop of [uploadWithRetry] from [attempt] on; [fuel] is the
    number of iterations the loop condition [attempt <= maxRetries]
    still allows. *)
Fixpoint retryLoop (fid : string) (xhr : Z -> XhrOutcome) (maxRetries : Z)
    (fuel : nat) (attempt : Z) (lastError : option UploadError) : RetryRun :=
  match fuel with
  | O => {| settled := inr lastError; attempts := []; delays := [] |}
  | S fuel' =>
      match uploadFile fid (xhr attempt) with
      | inl result =>
          {| settled := inl result; attempts := [attempt]; delays := [] |}
      | inr error =>
          if negb (truthy (retryable error)) || (attempt =? maxRetries) then
            {| settled := inr (Some error); attempts := [attempt]; delays := [] |}
          else
            let delay :=
              if attempt <? maxRetries then
                [default 0 (RETRY_DELAYS !! Z.to_nat (Z.min attempt (Z.of_nat (length RETRY_DELAYS) - 1)))]
              else [] in
            let rest := retryLoop fid xhr maxRetries fuel' (attempt + 1) (Some error) in
            {| settled := settled rest;
               attempts := attempt :: attempts rest;
               delays := delay ++ delays rest |}
      end
  end.

Definition uploadWithRetry (fid : string) (xhr : Z -> XhrOutcome) (maxRetries : Z)
  : RetryRun :=
  retryLoop fid xhr maxRetries (Z.to_nat (maxRetries + 1)) 0 None.

End UploadService.

(** ** The queue coordinator: the useUploadQueue hook *)

Module UseUploadQueue.

Import UploadService.

(** [type UploadStatus = "pending" | "uploading" | "completed" | "failed"]. *)
Inductive UploadStatus := Pending | Uploading | Completed | Failed.

#[global] Instance UploadStatus_eq_dec : EqDecision UploadStatus.
Proof. solve_decision. Defined.

(** A browser [File]; the queue only reads its name. *)
Record File := { name : string }.

(** [interface FileUploadItem]. An optional field that is absent is
    [None], or [VUndefined] for the two fields copied from the server's
    response. *)
Record FileUploadItem := {
  id : string;
  file : File;
  status : UploadStatus;
  progress : Z;
  retryCount : Z;
  error : option string;
  uploadStartTime : option Z;
  uploadEndTime : option Z;
  s3Key : jsval;
  fileUrl : jsval
}.

(** [UseUploadQueueOptions], after the defaults are filled in. *)
Record Options := {
  maxConcurrent : Z;
  maxRetries : Z;
  autoStart : bool
}.

Definition defaultOptions : Options :=
  {| maxConcurrent := MAX_CONCURRENT_UPLOADS;
     maxRetries := MAX_RETRY_ATTEMPTS;
     autoStart := true |}.

(** The state of the hook between two events. [filesRef] and
    [uploadingRef] are copied from [files] and [uploading] by the effects
    of every render, and every event is followed by a render, so they
    are not kept apart. [inFlight] lists the calls of [uploadFile] that
    are waiting for [uploadWithRetry], by file id. *)
Record QueueState := {
  files : list FileUploadItem;
  uploading : gset string;
  isProcessing : bool;
  processingRef : bool;
  inFlight : list string
}.

Definition initialState : QueueState :=
  {| files := []; uploading := ∅; isProcessing := false;
     processingRef := false; inFlight := [] |}.

Definition setFiles (g : list FileUploadItem -> list FileUploadItem)
    (s : QueueState) : QueueState :=
  {| files := g (files s); uploading := uploading s;
     isProcessing := isProcessing s; processingRef := processingRef s;
     inFlight := inFlight s |}.

Definition setUploading (g : gset string -> gset string)
    (s : QueueState) : QueueState :=
  {| files := files s; uploading := g (uploading s);
     isProcessing := isProcessing s; processingRef := processingRef s;
     inFlight := inFlight s |}.

Definition setIsProcessing (b : bool) (s : QueueState) : QueueState :=
  {| files := files s; uploading := uploading s;
     isProcessing := b; processingRef := processingRef s;
     inFlight := inFlight s |}.

Definition setProcessingRef (b : bool) (s : QueueState) : QueueState :=
  {| files := files s; uploading := uploading s;
     isProcessing := isProcessing s; processingRef := b;
     inFlight := inFlight s |}.

Definition setInFlight (g : list string -> list string)
    (s : QueueState) : QueueState :=
  {| files := files s; uploading := uploading s;
     isProcessing := isProcessing s; processingRef := processingRef s;
     inFlight := g (inFlight s) |}.

(** [prev.map((f) => f.id === fileId ? g(f) : f)]. *)
Definition mapId (fileId : string) (g : FileUploadItem -> FileUploadItem)
    (prev : list FileUploadItem) : list FileUploadItem :=
  (fun f => if bool_decide (id f = fileId) then g f else f) <$> prev.

(** [files.find((f) => f.id === fileId)]. *)
Definition findId (fileId : string) (fs : list FileUploadItem)
  : option FileUploadItem :=
  find (fun f => bool_decide (id f = fileId)) fs.

(** *** addFiles *)

Definition newItem (e : string * File) : FileUploadItem :=
  {| id := e.1; file := e.2; status := Pending; progress := 0;
     retryCount := 0; error := None; uploadStartTime := None;
     uploadEndTime := None; s3Key := VUndefined; fileUrl := VUndefined |}.

(** [newFiles] pairs every file with the id [generateId()] gave it. *)
Definition addFiles (o : Options) (newFiles : list (string * File))
    (s : QueueState) : QueueState :=
  let s1 := setFiles (fun prev => (prev ++ (newItem <$> newFiles))%list) s in
  if autoStart o && negb (processingRef s) then setIsProcessing true s1 else s1.

(** *** retryFile *)

Definition markPending (f : FileUploadItem) : FileUploadItem :=
  {| id := id f; file := file f; status := Pending; progress := 0;
     retryCount := retryCount f; error := None;
     uploadStartTime := uploadStartTime f; uploadEndTime := uploadEndTime f;
     s3Key := s3Key f; fileUrl := fileUrl f |}.

Definition retryFile (fileId : string) (s : QueueState) : QueueState :=
  let s1 := setFiles (mapId fileId markPending) s in
  if negb (processingRef s) then setIsProcessing true s1 else s1.

(** *** removeFile *)

Definition deleteFailure : string := "Failed to delete from storage".

Definition markDeleteFailed (f : FileUploadItem) : FileUploadItem :=
  {| id := id f; file := file f; status := status f; progress := progress f;
     retryCount := retryCount f; error := Some deleteFailure;
     uploadStartTime := uploadStartTime f; uploadEndTime := uploadEndTime f;
     s3Key := s3Key f; fileUrl := fileUrl f |}.

(** [file?.s3Key && file.status === "completed"]. *)
Definition deletesRemotely (found : option FileUploadItem) : bool :=
  match found with
  | Some f => truthy (s3Key f) && bool_decide (status f = Completed)
  | None => false
  end.

(** [closure] is the [files] the callback was created with;
    [deleteFile key] tells whether [uploadService.deleteFile] resolves.
    The [setFiles] and [setUploading] run after the [await], on the
    state of that moment. *)
Definition removeFile (closure : list FileUploadItem) (deleteFile : jsval -> bool)
    (fileId : string) (s : QueueState) : QueueState :=
  let found := findId fileId closure in
  if deletesRemotely found && negb (deleteFile (from_option s3Key VUndefined found)) then
    setFiles (mapId fileId markDeleteFailed) s
  else
    setUploading (fun prev => prev ∖ {[fileId]})
      (setFiles (fun prev => filter (fun f => id f ≠ fileId) prev) s).

(** *** clearCompleted *)

Definition completedFiles (closure : list FileUploadItem) : list FileUploadItem :=
  filter (fun f => status f = Completed ∧ truthy (s3Key f) = true) closure.

(** The requests of the [for] loop, in turn, each with its answer:
    [deleteFile k key] tells whether the [k]-th call of
    [uploadService.deleteFile], made for [key], resolves. The test
    [if (file.s3Key)] of the loop holds for every item of
    [completedFiles]. *)
Definition deleteRequests (closure : list FileUploadItem)
    (deleteFile : nat -> jsval -> bool) : list (bool * FileUploadItem) :=
  imap (fun k f => (deleteFile k (s3Key f), f)) (completedFiles closure).

(** The two lists the [for] loop fills. *)
Definition successfullyDeletedIds (closure : list FileUploadItem)
    (deleteFile : nat -> jsval -> bool) : list string :=
  (fun a => id a.2)
    <$> filter (fun a => a.1 = true) (deleteRequests closure deleteFile).

Definition failedDeleteIds (closure : list FileUploadItem)
    (deleteFile : nat -> jsval -> bool) : list string :=
  (fun a => id a.2)
    <$> filter (fun a => a.1 = false) (deleteRequests closure deleteFile).

Definition markFailedDeletes (failedIds : list string)
    (prev : list FileUploadItem) : list FileUploadItem :=
  if bool_decide (0 < length failedIds)%nat then
    (fun f => if bool_decide (id f ∈ failedIds) then markDeleteFailed f else f)
      <$> prev
  else prev.

Definition keptByClear (failedIds : list string) (f : FileUploadItem) : Prop :=
  (status f = Completed ∧ id f ∈ failedIds) ∨
  (status f ≠ Completed ∧ status f ≠ Failed).

#[global] Instance keptByClear_dec failedIds f : Decision (keptByClear failedIds f).
Proof. unfold keptByClear. apply _. Defined.

(** [closure] is the [files] the callback was created with; the two
    [setFiles] run when the last deletion has settled, on the [files] of
    that moment. *)
Definition clearCompleted (closure : list FileUploadItem)
    (deleteFile : nat -> jsval -> bool) (s : QueueState) : QueueState :=
  let failedIds := failedDeleteIds closure deleteFile in
  setFiles (fun prev => filter (keptByClear failedIds) prev)
    (setFiles (markFailedDeletes failedIds) s).

(** *** startProcessing, stopProcessing *)

Definition startProcessing (s : QueueState) : QueueState :=
  setIsProcessing true s.

(** [cancelAllUploads] aborts the requests; what is in flight then may
    never settle. *)
Definition stopProcessing (s : QueueState) : QueueState :=
  setUploading (fun _ => ∅) (setProcessingRef false (setIsProcessing false s)).

(** *** uploadFile *)

Definition markUploading (now : Z) (f : FileUploadItem) : FileUploadItem :=
  {| id := id f; file := file f; status := Uploading; progress := progress f;
     retryCount := retryCount f; error := error f;
     uploadStartTime := Some now; uploadEndTime := uploadEndTime f;
     s3Key := s3Key f; fileUrl := fileUrl f |}.

Definition markProgress (p : Z) (f : FileUploadItem) : FileUploadItem :=
  {| id := id f; file := file f; status := status f; progress := p;
     retryCount := retryCount f; error := error f;
     uploadStartTime := uploadStartTime f; uploadEndTime := uploadEndTime f;
     s3Key := s3Key f; fileUrl := fileUrl f |}.

Definition markCompleted (now : Z) (result : UploadResult)
    (f : FileUploadItem) : FileUploadItem :=
  {| id := id f; file := file f; status := Completed; progress := 100;
     retryCount := retryCount f; error := None;
     uploadStartTime := uploadStartTime f; uploadEndTime := Some now;
     s3Key := optprop (optprop (data result) "data") "s3Key";
     fileUrl := optprop (optprop (data result) "data") "fileUrl" |}.

Definition markFailed (o : Options) (now : Z) (errorMessage : string)
    (f : FileUploadItem) : FileUploadItem :=
  {| id := id f; file := file f; status := Failed; progress := progress f;
     retryCount := maxRetries o; error := Some errorMessage;
     uploadStartTime := uploadStartTime f; uploadEndTime := Some now;
     s3Key := s3Key f; fileUrl := fileUrl f |}.

(** [uploadFile] up to its [await]: [currentFiles] is [filesRef.current]. *)
Definition uploadFileBegin (currentFiles : list FileUploadItem) (now : Z)
    (fileId : string) (s : QueueState) : QueueState :=
  match findId fileId currentFiles with
  | None => s
  | Some f =>
      setInFlight (cons (id f))
        (setFiles (mapId (id f) (markUploading now))
           (setUploading (fun prev => prev ∪ {[id f]}) s))
  end.

(** The [onProgress] callback. *)
Definition uploadFileProgress (fileId : string) (p : Z) (s : QueueState)
  : QueueState :=
  setFiles (mapId fileId (markProgress p)) s.

(** [error instanceof Error ? error.message : "Upload failed"]. *)
Definition errorMessage (thrown : option UploadError) : string :=
  match thrown with
  | Some e => message e
  | None => "Upload failed"
  end.

(** [uploadFile] after its [await], on what [uploadWithRetry] returned
    or threw. *)
Definition uploadFileSettle (o : Options) (now : Z) (fileId : string)
    (outcome : UploadResult + option UploadError) (s : QueueState) : QueueState :=
  let s1 := setUploading (fun prev => prev ∖ {[fileId]}) s in
  match outcome with
  | inl result => setFiles (mapId fileId (markCompleted now result)) s1
  | inr thrown => setFiles (mapId fileId (markFailed o now (errorMessage thrown))) s1
  end.

(** *** processQueue *)

Definition pendingFiles (currentFiles : list FileUploadItem)
  : list FileUploadItem :=
  filter (fun f => status f = Pending) currentFiles.

Definition availableSlots (o : Options) (currentUploading : gset string) : Z :=
  maxConcurrent o - Z.of_nat (size currentUploading).

(** [pendingFiles.slice(0, availableSlots)] under its guard. *)
Definition filesToUpload (o : Options) (currentFiles : list FileUploadItem)
    (currentUploading : gset string) : list FileUploadItem :=
  if (0 <? availableSlots o currentUploading)
     && (0 <? Z.of_nat (length (pendingFiles currentFiles))) then
    take (Z.to_nat (availableSlots o currentUploading)) (pendingFiles currentFiles)
  else [].

Definition hasWork (currentFiles : list FileUploadItem)
    (currentUploading : gset string) : bool :=
  (0 <? Z.of_nat (length (pendingFiles currentFiles)))
  || (0 <? Z.of_nat (size currentUploading)).

(** One run of [processLoop]. The [isProcessing] it tests is the one
    [processQueue] was created with, which is [true]. When there is work
    the next run is left to the timer. *)
Definition processLoop (o : Options) (now : Z) (s : QueueState) : QueueState :=
  let currentFiles := files s in
  let currentUploading := uploading s in
  let s1 := foldl (fun acc f => uploadFileBegin currentFiles now (id f) acc) s
                  (filesToUpload o currentFiles currentUploading) in
  if processingRef s1 then
    if hasWork currentFiles currentUploading then s1
    else setIsProcessing false (setProcessingRef false s1)
  else s1.

Definition processQueue (o : Options) (now : Z) (s : QueueState) : QueueState :=
  if negb (isProcessing s) || processingRef s then s
  else processLoop o now (setProcessingRef true s).

(** The effect that runs after a render:
    [if (isProcessing && !processingRef.current) processQueue()]. *)
Definition effects (o : Options) (now : Z) (s : QueueState) : QueueState :=
  if isProcessing s && negb (processingRef s) then processQueue o now s else s.

(** *** stats *)

Record Stats := {
  total : nat;
  pending : nat;
  uploadingCount : nat;
  completed : nat;
  failed : nat
}.

Definition countStatus (st : UploadStatus) (fs : list FileUploadItem) : nat :=
  length (filter (fun f => status f = st) fs).

Definition stats (fs : list FileUploadItem) : Stats :=
  {| total := length fs;
     pending := countStatus Pending fs;
     uploadingCount := countStatus Uploading fs;
     completed := countStatus Completed fs;
     failed := countStatus Failed fs |}.

(** *** Events *)

(** What can happen to the hook. Every event runs to its end before the
    next one starts, and is followed by a render. removeFile and
    clearCompleted wait for the storage before they write. [RemoveFile]
    and [ClearCompleted] are the calls during whose wait nothing else
    happens: they write to the [files] they have read. [RemoveFileLate]
    and [ClearCompletedLate] are the calls that go on after other
    events: [closure] is the [files] they read when they were called,
    and they write to the state of the moment they go on. Any list is
    let in as [closure]; the runs of the hook are among these. *)
Inductive Event :=
| AddFiles (newFiles : list (string * File))
| RetryFile (fileId : string)
| RemoveFile (fileId : string) (deleteFile : jsval -> bool)
| ClearCompleted (deleteFile : nat -> jsval -> bool)
| StartProcessing
| StopProcessing
| Timer
| Progress (fileId : string) (p : Z)
| Settle (fileId : string) (xhr : Z -> XhrOutcome)
| RemoveFileLate (closure : list FileUploadItem) (fileId : string)
    (deleteFile : jsval -> bool)
| ClearCompletedLate (closure : list FileUploadItem)
    (deleteFile : nat -> jsval -> bool).

Fixpoint removeFirst (x : string) (l : list string) : list string :=
  match l with
  | [] => []
  | y :: l' => if bool_decide (y = x) then l' else y :: removeFirst x l'
  end.

(** The handler of an event. The timer only fires while the loop is
    running; progress and settlement only reach a call that is in
    flight. *)
Definition handle (o : Options) (now : Z) (e : Event) (s : QueueState)
  : QueueState :=
  match e with
  | AddFiles newFiles => addFiles o newFiles s
  | RetryFile fileId => retryFile fileId s
  | RemoveFile fileId deleteFile => removeFile (files s) deleteFile fileId s
  | ClearCompleted deleteFile => clearCompleted (files s) deleteFile s
  | StartProcessing => startProcessing s
  | StopProcessing => stopProcessing s
  | Timer => if processingRef s then processLoop o now s else s
  | Progress fileId p =>
      if bool_decide (fileId ∈ inFlight s) then uploadFileProgress fileId p s
      else s
  | Settle fileId xhr =>
      if bool_decide (fileId ∈ inFlight s) then
        setInFlight (removeFirst fileId)
          (uploadFileSettle o now fileId
             (settled (uploadWithRetry fileId xhr (maxRetries o))) s)
      else s
  | RemoveFileLate closure fileId deleteFile =>
      removeFile closure deleteFile fileId s
  | ClearCompletedLate closure deleteFile =>
      clearCompleted closure deleteFile s
  end.

Definition step (o : Options) (s : QueueState) (te : Z * Event) : QueueState :=
  effects o te.1 (handle o te.1 te.2 s).

(** The state after a trace of timed events. *)
Definition run (o : Options) (trace : list (Z * Event)) : QueueState :=
  foldl (step o) initialState trace.

(** The ids [generateId()] produced along a trace. *)
Definition enqueuedIds (trace : list (Z * Event)) : list string :=
  trace ≫= (fun te => match te.2 with
                      | AddFiles newFiles => newFiles.*1
                      | _ => []
                      end).

Definition isStop (e : Event) : bool :=
  match e with StopProcessing => true | _ => false end.

End UseUploadQueue.

(** ** What the properties are stated with *)

Module QueueSpec.

Import UploadService UseUploadQueue.

Definition ids (fs : list FileUploadItem) : list string := id <$> fs.

(** The ids of the items whose status is Uploading. *)
Definition uploadingIds (fs : list FileUploadItem) : list string :=
  ids (filter (fun f => status f = Uploading) fs).

(** The response text is not JSON, or is the JSON [null]: reading
    [errorResponse.error] throws. *)
Definition unreadable (response : option jsval) : bool :=
  match response with
  | None | Some VUndefined | Some VNull => true
  | Some _ => false
  end.

(** The [retryable] member of the [error] object of a response body,
    [VUndefined] when there is none. *)
Definition bodyRetryable (response : option jsval) : jsval :=
  match response with
  | Some (VObj fs) =>
      match field "error" fs with
      | VObj es => field "retryable" es
      | _ => VUndefined
      end
  | _ => VUndefined
  end.

(** The [message] member of the [error] object of a response body,
    [VUndefined] when there is none. *)
Definition bodyMessage (response : option jsval) : jsval :=
  match response with
  | Some (VObj fs) =>
      match field "error" fs with
      | VObj es => field "message" es
      | _ => VUndefined
      end
  | _ => VUndefined
  end.

(** The error message of the body cannot be made a string: it is an
    object with a key [toString] of its own, or an array that holds
    one. *)
Definition unprintable (response : option jsval) : bool :=
  bool_decide (ToString (bodyMessage response) = None).

(** The response body says [retryable: b]. *)
Definition marksRetryable (b : bool) (response : option jsval) : bool :=
  match bodyRetryable response with
  | VBool b' => bool_decide (b' = b)
  | _ => false
  end.

(** The [retryable] flag of the error of an attempt, when it failed. *)
Definition attemptRetryable (r : UploadResult + UploadError) : option jsval :=
  match r with
  | inl _ => None
  | inr e => Some (retryable e)
  end.

(** clearCompleted asked the storage to delete the file of the id [x],
    and the request failed: one of the items that were Completed with a
    key in [closure], the [k]-th of them, has the id [x], and the
    [k]-th request failed. *)
Definition deletionFailed (closure : list FileUploadItem)
    (deleteFile : nat -> jsval -> bool) (x : string) : Prop :=
  ∃ k g, completedFiles closure !! k = Some g ∧ id g = x ∧
         deleteFile k (s3Key g) = false.

(** What clearCompleted makes of an item of the collection it writes
    to, when [failedIds] are the ids whose deletion failed: the status
    is the one the item has at that moment. *)
Definition clearedItem (failedIds : list string) (f : FileUploadItem)
  : option FileUploadItem :=
  let f' := if bool_decide (id f ∈ failedIds) then markDeleteFailed f else f in
  match status f with
  | Pending | Uploading => Some f'
  | Completed => if bool_decide (id f ∈ failedIds) then Some f' else None
  | Failed => None
  end.


(** [x] comes before [y] in [l]. *)
Definition before (x y : string) (l : list string) : Prop :=
  ∃ l1 l2 l3, l = (l1 ++ x :: l2 ++ y :: l3)%list.

(** The states a run of [processLoop] reads after a trace: the state the
    trace ends in, which the run of the timer reads, and the state the
    handler of its last event leaves, which the run that the effect
    starts reads. *)
Definition evaluated (o : Options) (trace : list (Z * Event)) (s : QueueState)
  : Prop :=
  s = run o trace ∨
  ∃ trace' te, trace = trace' ++ [te] ∧
    s = setProcessingRef true (handle o te.1 te.2 (run o trace')).

(** The invariant behind the concurrency ceiling: the set [uploading]
    holds the id of every Uploading item and is within the ceiling. *)
Definition withinCeiling (o : Options) (s : QueueState) : Prop :=
  (∀ f, f ∈ files s → status f = Uploading → id f ∈ uploading s) ∧
  Z.of_nat (size (uploading s)) ≤ maxConcurrent o.

(** *** Sample data *)

Definition fileA : File := {| name := "a.txt" |}.
Definition fileB : File := {| name := "b.txt" |}.
Definition fileC : File := {| name := "c.txt" |}.

(** A 200 response that carries the key and the url where the hook reads
    them. *)
Definition okBody : jsval :=
  VObj [("success", VBool true);
        ("data", VObj [("data", VObj [("s3Key", VStr "uploads/a.txt");
                                      ("fileUrl", VStr "https://cdn/a.txt")])])].

Definition okResponse : XhrOutcome := Load 200 "OK" (Some okBody).

(** Two network errors, then success. *)
Definition failsTwice (attempt : Z) : XhrOutcome :=
  if attempt <? 2 then NetworkError else okResponse.

(** A 200 response that is not JSON: PARSE_ERROR, not retryable. *)
Definition garbled (attempt : Z) : XhrOutcome := Load 200 "OK" None.

Definition alwaysOk (attempt : Z) : XhrOutcome := okResponse.

Definition deleteFails (key : jsval) : bool := false.
Definition deleteSucceeds (key : jsval) : bool := true.

(** The answers to the requests of one clearCompleted. *)
Definition everyDeleteFails (k : nat) (key : jsval) : bool := false.
Definition everyDeleteSucceeds (k : nat) (key : jsval) : bool := true.

(** A 404 whose error message has a key [toString] of its own. *)
Definition opaqueBody : jsval :=
  VObj [("error", VObj [("message", VObj [("toString", VNum "1")])])].

(** One file is enqueued, admitted at once and uploaded. *)
Definition uploadedTrace : list (Z * Event) :=
  [(0, AddFiles [("id-a", fileA)]); (50, Settle "id-a" alwaysOk)].

Definition completedA : FileUploadItem :=
  {| id := "id-a"; file := fileA; status := Completed; progress := 100;
     retryCount := 0; error := None; uploadStartTime := Some 0;
     uploadEndTime := Some 50; s3Key := VStr "uploads/a.txt";
     fileUrl := VStr "https://cdn/a.txt" |}.

Definition failedA : FileUploadItem :=
  {| id := "id-a"; file := fileA; status := Failed; progress := 0;
     retryCount := 3; error := Some "Invalid response format from server";
     uploadStartTime := Some 0; uploadEndTime := Some 50;
     s3Key := VUndefined; fileUrl := VUndefined |}.

Definition uploadingA : FileUploadItem :=
  {| id := "id-a"; file := fileA; status := Uploading; progress := 0;
     retryCount := 0; error := None; uploadStartTime := Some 0;
     uploadEndTime := None; s3Key := VUndefined; fileUrl := VUndefined |}.

Definition threeFiles : list (string * File) :=
  [("id-a", fileA); ("id-b", fileB); ("id-c", fileC)].

Definition fiveFiles : list (string * File) :=
  threeFiles ++ [("id-d", {| name := "d.txt" |}); ("id-e", {| name := "e.txt" |})].

(** Five files are enqueued, the first one is uploaded and the timer
    fires. *)
Definition fiveFilesTrace : list (Z * Event) :=
  [(0, AddFiles fiveFiles); (50, Settle "id-a" alwaysOk); (100, Timer)].

(** The queue of a caller that starts the processing itself. *)
Definition manualOptions : Options :=
  {| maxConcurrent := 2; maxRetries := 3; autoStart := false |}.

Definition enqueuedTrace : list (Z * Event) := [(0, AddFiles threeFiles)].

(** A file is uploaded; its removal is asked for and waits for the
    storage; meanwhile the item is sent back to Pending; then the
    deletion fails. *)
Definition retriedWhileRemoving : list (Z * Event) :=
  uploadedTrace ++ [(60, RetryFile "id-a");
                    (90, RemoveFileLate [completedA] "id-a" deleteFails)].

Definition pendingWithError : FileUploadItem :=
  {| id := "id-a"; file := fileA; status := Pending; progress := 0;
     retryCount := 0; error := Some deleteFailure; uploadStartTime := Some 0;
     uploadEndTime := Some 50; s3Key := VStr "uploads/a.txt";
     fileUrl := VStr "https://cdn/a.txt" |}.

(** Three files are enqueued and two admitted; the queue is stopped and
    started again. *)
Definition restartedTrace : list (Z * Event) :=
  [(0, AddFiles threeFiles); (20, StopProcessing); (40, StartProcessing)].

End QueueSpec.

(** ** The rest of the transfer client *)

Module UploadServiceState.

Import UploadService.

(** The members of the service object that change: [activeUploads], a
    [Map] from file id to the XMLHttpRequest of the running attempt. A
    request is named by the number of requests created before it;
    [aborted] holds the requests on which [abort()] was called. *)
Record Service := {
  activeUploads : gmap string nat;
  aborted : gset nat;
  created : nat
}.

Definition newService : Service :=
  {| activeUploads := ∅; aborted := ∅; created := 0 |}.

(** [uploadFile] up to [xhr.send]: [new XMLHttpRequest()] and
    [this.activeUploads.set(fileId, xhr)]. *)
Definition sendRequest (fileId : string) (sv : Service) : Service :=
  {| activeUploads := <[fileId := created sv]> (activeUploads sv);
     aborted := aborted sv;
     created := S (created sv) |}.

(** The first statement of [onload], [onerror] and [ontimeout]:
    [this.activeUploads.delete(fileId)]. *)
Definition requestDone (fileId : string) (sv : Service) : Service :=
  {| activeUploads := delete fileId (activeUploads sv);
     aborted := aborted sv;
     created := created sv |}.

Definition cancelUpload (fileId : string) (sv : Service) : Service :=
  match activeUploads sv !! fileId with
  | Some xhr =>
      {| activeUploads := delete fileId (activeUploads sv);
         aborted := aborted sv ∪ {[xhr]};
         created := created sv |}
  | None => sv
  end.

Definition cancelAllUploads (sv : Service) : Service :=
  {| activeUploads := ∅;
     aborted := aborted sv ∪ map_img (activeUploads sv);
     created := created sv |}.

Definition getActiveUploadCount (sv : Service) : nat := size (activeUploads sv).

Definition isUploading (fileId : string) (sv : Service) : bool :=
  bool_decide (is_Some (activeUploads sv !! fileId)).

(** How the [fetch] of [deleteFile] ends: it rejects ([msg] is the
    message when the reason is an [Error]), or it gives a response with
    its [ok], its [status] and what [response.json()] resolves with
    ([None] when that rejects). A key that throws when the request's
    address is built from it ends in the same [catch] as a [fetch] that
    rejects with an [Error]. *)
Inductive FetchOutcome :=
| FetchRejects (msg : option string)
| FetchResponse (ok : bool) (status : Z) (json : option jsval).

(** [deleteFile]: [None] when it resolves, else the error it throws. The
    [Error] thrown for a response that is not ok is caught by the
    function's own [catch], which throws the upload error; so is the
    TypeError of a message that cannot be made a string. *)
Definition deleteFile (o : FetchOutcome) : option UploadError :=
  match o with
  | FetchResponse ok status json =>
      if ok then None
      else
        let errorData := default VNull json in
        let thrown :=
          default typeErrorMessage
            (newError
               (or (optprop (optprop errorData "error") "message")
                   (VStr ("Delete failed with status " +:+ pretty status)))) in
        Some (uploadError thrown (VBool false) (VStr "DELETE_ERROR"))
  | FetchRejects msg =>
      Some (uploadError (default "Failed to delete file" msg)
                        (VBool false) (VStr "DELETE_ERROR"))
  end.

End UploadServiceState.

(** ** The components that call the queue *)

Module View.

Import UseUploadQueue.

(** FileItem.tsx. *)
Definition showProgress (f : FileUploadItem) : bool :=
  bool_decide (status f = Uploading) && (0 <? progress f).

Definition showRetry (f : FileUploadItem) : bool :=
  bool_decide (status f = Failed).

Definition canRemove (f : FileUploadItem) : bool :=
  bool_decide (status f = Completed) || bool_decide (status f = Failed).

(** FileDropZone: [handleDrop] and [handleFileSelect] pass the files on
    when the zone is not disabled and there is at least one. *)
Definition handleDrop (disabled : bool) (dropped : list File)
  : option (list File) :=
  if disabled then None
  else if (0 <? Z.of_nat (length dropped)) then Some dropped else None.

(** The events the rendered components let happen in state [s]. The
    retry and remove buttons belong to the item they are rendered for,
    which for a removal that goes on late is an item of the collection
    it read; FileQueue renders nothing for an empty collection, shows
    the Upload button when the queue is not processing, disabled without
    a Pending item, and the Stop button otherwise; no component calls
    clearCompleted. The timer and the network are not the view's. *)
Definition offered (s : QueueState) (e : Event) : bool :=
  match e with
  | AddFiles newFiles =>
      bool_decide (is_Some (handleDrop false (newFiles.*2)))
  | RetryFile fileId =>
      bool_decide (Exists (fun f => id f = fileId ∧ showRetry f = true) (files s))
  | RemoveFile fileId _ =>
      bool_decide (Exists (fun f => id f = fileId ∧ canRemove f = true) (files s))
  | RemoveFileLate closure fileId _ =>
      bool_decide (Exists (fun f => id f = fileId ∧ canRemove f = true) closure)
  | ClearCompleted _ | ClearCompletedLate _ _ => false
  | StartProcessing =>
      negb (isProcessing s) && negb (bool_decide (pending (stats (files s)) = 0%nat))
  | StopProcessing =>
      isProcessing s && negb (bool_decide (length (files s) = 0%nat))
  | Timer | Progress _ _ | Settle _ _ => true
  end.

(** Every event of the trace is offered in the state it happens in. *)
Fixpoint offeredFrom (o : Options) (s : QueueState) (trace : list (Z * Event))
  : bool :=
  match trace with
  | [] => true
  | te :: rest => offered s te.2 && offeredFrom o (step o s te) rest
  end.

Definition viewDriven (o : Options) (trace : list (Z * Event)) : bool :=
  offeredFrom o initialState trace.

End View.

(** ** What the further properties are stated with *)

Module MoreSpec.

Import UploadService UseUploadQueue QueueSpec UploadServiceState View.

(** The entry of [RETRY_DELAYS] for the attempt [k], the last entry past
    the end of the table. *)
Definition tableDelay (k : nat) : Z :=
  default 0 (RETRY_DELAYS !! (k `min` (length RETRY_DELAYS - 1))%nat).

(** The outcome of [uploadWithRetry] when its last attempt gave [r]. *)
Definition outcomeOf (r : UploadResult + UploadError)
  : UploadResult + option UploadError :=
  match r with
  | inl result => inl result
  | inr e => inr (Some e)
  end.

(** The set [uploading] is the set of the ids of the Uploading items. *)
Definition uploadingMatches (s : QueueState) : Prop :=
  ∀ x, x ∈ uploading s ↔ ∃ f, f ∈ files s ∧ id f = x ∧ status f = Uploading.

(** Every id in the set [uploading] is the id of an Uploading item. *)
Definition setBacked (s : QueueState) : Prop :=
  ∀ x, x ∈ uploading s → ∃ f, f ∈ files s ∧ id f = x ∧ status f = Uploading.

Definition isRetry (e : Event) : bool :=
  match e with RetryFile _ => true | _ => false end.

(** Whether [deleteFile] resolves for a key, when the server answers the
    request for the key [k] as [fetch k]. *)
Definition deleteResolves (fetch : jsval -> FetchOutcome) (key : jsval) : bool :=
  match deleteFile (fetch key) with
  | None => true
  | Some _ => false
  end.

(** The request got a response, and the response is ok. *)
Definition responseOk (o : FetchOutcome) : bool :=
  match o with
  | FetchResponse ok _ _ => ok
  | FetchRejects _ => false
  end.

(** removeFile is held back: the item it finds is Completed with a key
    and the deletion of the key fails. *)
Definition heldBack (s : QueueState) (deleteFile : jsval -> bool)
    (fileId : string) : bool :=
  deletesRemotely (findId fileId (files s))
  && negb (deleteFile (from_option s3Key VUndefined (findId fileId (files s)))).

(** The state after a trace that starts in [s]. *)
Definition runFrom (o : Options) (s : QueueState) (trace : list (Z * Event))
  : QueueState :=
  foldl (step o) s trace.

(** *** Sample data *)

Definition alwaysOffline (attempt : Z) : XhrOutcome := NetworkError.

Definition noRetries : Options :=
  {| maxConcurrent := 2; maxRetries := -1; autoStart := true |}.

(** A 503 whose body forbids the retry. *)
Definition unavailableBody : jsval :=
  VObj [("error", VObj [("message", VStr "Maintenance");
                        ("retryable", VBool false)])].

(** A 200 whose body reports a failure that may be retried. *)
Definition busyBody : jsval :=
  VObj [("success", VBool false);
        ("error", VObj [("message", VStr "Busy"); ("retryable", VBool true)])].

Definition twoUploads : Service :=
  sendRequest "id-b" (sendRequest "id-a" newService).

Definition failedTrace : list (Z * Event) :=
  [(0, AddFiles [("id-a", fileA)]); (50, Settle "id-a" garbled)].

(** The storage answers every DELETE with 404. *)
Definition notFound (key : jsval) : FetchOutcome :=
  FetchResponse false 404 (Some (VObj [("error", VObj [("message", VStr "No such key")])])).

End MoreSpec.

(** ** Properties of the transfer client *)

Module UploadServiceProperties.

Import UploadService QueueSpec.

Lemma prop_truthy v k : truthy v = true → prop v k = Some (optprop v k).
Proof. by destruct v. Qed.

(** The message [new Error] gets from [message || fallback]. *)
Lemma newError_or msg fallback :
  newError (or msg (VStr fallback)) =
  (fun m => if truthy msg then m else fallback) <$> ToString msg.
Proof.
  unfold or. destruct msg as [| |[]|n|m|l|fs]; cbn [truthy]; try done.
  - cbn [ToString fmap option_fmap option_map]. by case_bool_decide.
  - cbn [ToString fmap option_fmap option_map]. by case_bool_decide.
  - cbn [negb newError]. by destruct (ToString (VArr l)).
  - cbn [negb newError]. by destruct (ToString (VObj fs)).
Qed.

Lemma newError_None msg : newError msg = None ↔ ToString msg = None.
Proof. by destruct msg. Qed.

(** The flag of a response whose status is not 200. *)
Lemma uploadFile_error_retryable fid status statusText response :
  status ≠ 200 →
  attemptRetryable (uploadFile fid (Load status statusText response)) =
  Some (VBool (if unreadable response || unprintable response
               then 500 <=? status
               else negb (marksRetryable false response))).
Proof.
  intros Hs. unfold uploadFile.
  destruct (Z.eqb_spec status 200) as [|_]; [done|].
  destruct response as [body|]; [|done].
  destruct body as [| |b|n|s|l|fs]; try done.
  unfold unprintable, marksRetryable, bodyRetryable, bodyMessage, onloadError.
  cbn [unreadable orb prop mbind option_bind].
  destruct (field "error" fs) as [| |[]|n|s|l|es] eqn:He;
    try (simpl; done).
  - unfold or. simpl. by case_bool_decide.
  - unfold or. simpl. by case_bool_decide.
  - change (or (VObj es) (VObj [])) with (VObj es).
    cbn [prop mbind option_bind]. unfold createUploadError.
    rewrite newError_or.
    destruct (ToString (field "message" es)) as [m|] eqn:Hm.
    + rewrite bool_decide_eq_false_2 by done. simpl.
      by destruct (field "retryable" es) as [| |[]| | | |].
    + by rewrite bool_decide_eq_true_2.
Qed.

(** C3, as the code has it: a response with a status in [400,499]
    settles the attempt with an error whose [retryable] is [false] exactly
    when the body cannot be read as JSON (or is [null]), or the message of
    its error object cannot be made a string, or its error object says
    [retryable: false]; any other body, also one that says nothing about
    [retryable], gives [retryable = true]. *)
Theorem client_error_retryable fid status statusText response :
  400 ≤ status ≤ 499 →
  ∃ e, uploadFile fid (Load status statusText response) = inr e ∧
       retryable e =
       VBool (negb (unreadable response || unprintable response
                    || marksRetryable false response)).
Proof.
  intros Hs.
  pose proof (uploadFile_error_retryable fid status statusText response) as H.
  destruct (uploadFile fid (Load status statusText response)) as [r|e] eqn:Hu.
  - assert (status ≠ 200) as Hne by lia. specialize (H Hne). done.
  - exists e. split; [done|].
    assert (status ≠ 200) as Hne by lia. specialize (H Hne).
    simpl in H. injection H as ->.
    destruct (unreadable response || unprintable response) eqn:Hun; simpl.
    + f_equal. apply Z.leb_gt. lia.
    + done.
Qed.

Lemma client_error_retryable_witness :
  ∃ e, uploadFile "id-a" (Load 404 "Not Found" (Some (VObj []))) = inr e ∧
       retryable e =
       VBool (negb (unreadable (Some (VObj []))
                    || unprintable (Some (VObj []))
                    || marksRetryable false (Some (VObj [])))).
Proof. apply (client_error_retryable "id-a" 404 "Not Found"). lia. Defined.

(** C3 as stated fails: a 404 whose body is the empty JSON object does
    not mark [retryable: true], and the attempt fails with
    [retryable = true]. *)
Lemma client_error_not_terminal :
  400 ≤ 404 ≤ 499 ∧
  marksRetryable true (Some (VObj [])) = false ∧
  attemptRetryable (uploadFile "id-a" (Load 404 "Not Found" (Some (VObj []))))
  = Some (VBool true).
Proof. split; [lia|]. split; reflexivity. Qed.

(** A 404 whose error message cannot be made a string: [new Error]
    throws in the [try], and the [catch] classifies by the status. *)
Example client_error_opaque_message :
  unprintable (Some opaqueBody) = true ∧
  uploadFile "id-a" (Load 404 "Not Found" (Some opaqueBody))
  = inr (uploadError "HTTP 404: Not Found" (VBool false) (VStr "HTTP_404")) ∧
  attemptRetryable (uploadFile "id-a" (Load 503 "Unavailable" (Some opaqueBody)))
  = Some (VBool true).
Proof. repeat split. Qed.

End UploadServiceProperties.

(** ** Properties of the commands of the queue *)

Module QueueProperties.

Import UploadService UseUploadQueue QueueSpec.

Lemma lookup_mapId fileId g fs i :
  mapId fileId g fs !! i =
  (fun f => if bool_decide (id f = fileId) then g f else f) <$> fs !! i.
Proof. unfold mapId. apply list_lookup_fmap. Qed.

Lemma length_mapId fileId g fs : length (mapId fileId g fs) = length fs.
Proof. unfold mapId. apply length_fmap. Qed.

Lemma findId_Some fileId fs f :
  findId fileId fs = Some f → f ∈ fs ∧ id f = fileId.
Proof.
  intros H. apply find_some in H as [Hin Hid].
  split; [by apply list_elem_of_In | by apply bool_decide_eq_true in Hid].
Qed.

(** C10: the total of the stats is the sum of the four counts. *)
Theorem stats_total fs :
  total (stats fs) =
  (pending (stats fs) + uploadingCount (stats fs)
   + completed (stats fs) + failed (stats fs))%nat.
Proof.
  unfold stats, countStatus. simpl.
  induction fs as [|f fs IH]; [done|].
  rewrite !filter_cons. simpl. rewrite IH.
  destruct (status f); repeat case_decide; try done; simpl; lia.
Qed.




(** C7: when the item found for [fileId] is Completed, has a key, and
    the remote deletion fails, removeFile removes nothing: every item
    stays at its place, the items with that id get the delete-failure
    error and keep their status, the others are unchanged. *)
Theorem removeFile_delete_failure closure deleteFile fileId s f :
  findId fileId closure = Some f →
  status f = Completed →
  truthy (s3Key f) = true →
  deleteFile (s3Key f) = false →
  length (files (removeFile closure deleteFile fileId s)) = length (files s) ∧
  uploading (removeFile closure deleteFile fileId s) = uploading s ∧
  ∀ i g, files s !! i = Some g →
    ∃ g', files (removeFile closure deleteFile fileId s) !! i = Some g' ∧
          id g' = id g ∧ status g' = status g ∧
          (id g = fileId → error g' = Some deleteFailure) ∧
          (id g ≠ fileId → g' = g).
Proof.
  intros Hfind Hst Hkey Hdel. unfold removeFile.
  rewrite Hfind. simpl. rewrite Hkey, Hst, Hdel. simpl.
  split; [apply length_mapId|]. split; [done|].
  intros i g Hg. rewrite lookup_mapId, Hg. simpl.
  eexists; split; [done|]. case_bool_decide; done.
Qed.

Lemma removeFile_delete_failure_witness :
  length (files (removeFile [completedA] deleteFails "id-a"
                   (run defaultOptions uploadedTrace)))
  = length (files (run defaultOptions uploadedTrace)) ∧
  uploading (removeFile [completedA] deleteFails "id-a"
               (run defaultOptions uploadedTrace))
  = uploading (run defaultOptions uploadedTrace) ∧
  ∀ i g, files (run defaultOptions uploadedTrace) !! i = Some g →
    ∃ g', files (removeFile [completedA] deleteFails "id-a"
                   (run defaultOptions uploadedTrace)) !! i = Some g' ∧
          id g' = id g ∧ status g' = status g ∧
          (id g = "id-a" → error g' = Some deleteFailure) ∧
          (id g ≠ "id-a" → g' = g).
Proof.
  apply (removeFile_delete_failure [completedA] deleteFails "id-a"
           (run defaultOptions uploadedTrace) completedA); reflexivity.
Defined.

Lemma files_settle o now fileId xhr s :
  fileId ∈ inFlight s →
  files (handle o now (Settle fileId xhr) s) =
  match settled (uploadWithRetry fileId xhr (maxRetries o)) with
  | inl result => mapId fileId (markCompleted now result) (files s)
  | inr thrown => mapId fileId (markFailed o now (errorMessage thrown)) (files s)
  end.
Proof.
  intros Hin. simpl. rewrite bool_decide_eq_true_2 by done.
  unfold uploadFileSettle.
  by destruct (settled (uploadWithRetry fileId xhr (maxRetries o))).
Qed.

(** Two retryable failures and a success, with three retries allowed. *)
Lemma uploadWithRetry_third_attempt fid xhr e0 e1 result :
  uploadFile fid (xhr 0) = inr e0 → truthy (retryable e0) = true →
  uploadFile fid (xhr 1) = inr e1 → truthy (retryable e1) = true →
  uploadFile fid (xhr 2) = inl result →
  uploadWithRetry fid xhr 3 =
  {| settled := inl result; attempts := [0; 1; 2]; delays := [1000; 2000] |}.
Proof.
  intros H0 T0 H1 T1 H2. unfold uploadWithRetry.
  change (Z.to_nat (3 + 1)) with 4%nat.
  cbn [retryLoop]. rewrite H0, T0. cbn [negb orb Z.eqb].
  change (0 + 1) with 1. cbn [retryLoop]. rewrite H1, T1.
  change (1 + 1) with 2. cbn [negb orb]. change (1 =? 3) with false.
  cbn [retryLoop]. rewrite H2. reflexivity.
Qed.

(** A failure that is not retryable ends the loop at once. *)
Lemma uploadWithRetry_not_retryable fid xhr maxRetries e :
  0 ≤ maxRetries →
  uploadFile fid (xhr 0) = inr e → truthy (retryable e) = false →
  uploadWithRetry fid xhr maxRetries =
  {| settled := inr (Some e); attempts := [0]; delays := [] |}.
Proof.
  intros Hm H0 T0. unfold uploadWithRetry.
  destruct (Z.to_nat (maxRetries + 1)) as [|fuel] eqn:Hfuel; [lia|].
  cbn [retryLoop]. by rewrite H0, T0.
Qed.

(** C4, as the code has it: with three retries allowed, two retryable
    failures and a success on the third attempt, uploadWithRetry makes
    the attempts 0, 1 and 2 and the item ends Completed; its retryCount
    is the one it had before the transfer, which is 0 for an item that
    was enqueued and never failed: the attempts are not counted on the
    item. *)
Theorem retried_upload_keeps_retryCount o now fileId xhr s e0 e1 result :
  maxRetries o = 3 →
  fileId ∈ inFlight s →
  uploadFile fileId (xhr 0) = inr e0 → truthy (retryable e0) = true →
  uploadFile fileId (xhr 1) = inr e1 → truthy (retryable e1) = true →
  uploadFile fileId (xhr 2) = inl result →
  attempts (uploadWithRetry fileId xhr (maxRetries o)) = [0; 1; 2] ∧
  ∀ i f, files s !! i = Some f → id f = fileId →
    ∃ f', files (handle o now (Settle fileId xhr) s) !! i = Some f' ∧
          status f' = Completed ∧ retryCount f' = retryCount f.
Proof.
  intros Hm Hin H0 T0 H1 T1 H2.
  rewrite files_settle by done. rewrite Hm.
  rewrite (uploadWithRetry_third_attempt _ _ _ _ _ H0 T0 H1 T1 H2).
  split; [done|]. intros i f Hf Hid. cbn [settled].
  rewrite lookup_mapId, Hf. simpl.
  rewrite bool_decide_eq_true_2 by done. by eexists.
Qed.

Lemma retried_upload_keeps_retryCount_witness :
  attempts (uploadWithRetry "id-a" failsTwice (maxRetries defaultOptions))
  = [0; 1; 2] ∧
  ∀ i f, files (run defaultOptions [(0, AddFiles [("id-a", fileA)])]) !! i
         = Some f → id f = "id-a" →
    ∃ f', files (handle defaultOptions 50 (Settle "id-a" failsTwice)
                   (run defaultOptions [(0, AddFiles [("id-a", fileA)])])) !! i
          = Some f' ∧
          status f' = Completed ∧ retryCount f' = retryCount f.
Proof.
  eapply (retried_upload_keeps_retryCount defaultOptions 50 "id-a" failsTwice
            (run defaultOptions [(0, AddFiles [("id-a", fileA)])])).
  - reflexivity.
  - apply (bool_decide_unpack _). vm_compute. exact I.
  - reflexivity.
  - reflexivity.
  - reflexivity.
  - reflexivity.
  - reflexivity.
Defined.

(** C4 as stated fails: after two retryable failures and a success on
    the third attempt the item is Completed with retryCount 0, not 2. *)
Lemma retried_upload_retryCount_zero :
  maxRetries defaultOptions = 3 ∧
  attemptRetryable (uploadFile "id-a" (failsTwice 0)) = Some (VBool true) ∧
  attemptRetryable (uploadFile "id-a" (failsTwice 1)) = Some (VBool true) ∧
  attemptRetryable (uploadFile "id-a" (failsTwice 2)) = None ∧
  ∃ f, files (run defaultOptions
                [(0, AddFiles [("id-a", fileA)]); (50, Settle "id-a" failsTwice)])
       = [f] ∧
       status f = Completed ∧ retryCount f = 0 ∧ retryCount f ≠ 2.
Proof.
  repeat (split; [reflexivity|]).
  eexists. split; [reflexivity|]. repeat split. discriminate.
Qed.

(** C5, as the code has it: when the first attempt fails with an error
    that is not retryable, uploadWithRetry makes no other attempt and the
    item ends Failed with that error; its retryCount is set to
    maxRetries. *)
Theorem terminal_failure_sets_maxRetries o now fileId xhr s e :
  0 ≤ maxRetries o →
  fileId ∈ inFlight s →
  uploadFile fileId (xhr 0) = inr e → truthy (retryable e) = false →
  attempts (uploadWithRetry fileId xhr (maxRetries o)) = [0] ∧
  ∀ i f, files s !! i = Some f → id f = fileId →
    ∃ f', files (handle o now (Settle fileId xhr) s) !! i = Some f' ∧
          status f' = Failed ∧ error f' = Some (message e) ∧
          retryCount f' = maxRetries o.
Proof.
  intros Hm Hin H0 T0.
  rewrite files_settle by done.
  rewrite (uploadWithRetry_not_retryable _ _ _ _ Hm H0 T0).
  split; [done|]. intros i f Hf Hid. cbn [settled].
  rewrite lookup_mapId, Hf. simpl.
  rewrite bool_decide_eq_true_2 by done. by eexists.
Qed.

Lemma terminal_failure_sets_maxRetries_witness :
  attempts (uploadWithRetry "id-a" garbled (maxRetries defaultOptions)) = [0] ∧
  ∀ i f, files (run defaultOptions [(0, AddFiles [("id-a", fileA)])]) !! i
         = Some f → id f = "id-a" →
    ∃ f', files (handle defaultOptions 50 (Settle "id-a" garbled)
                   (run defaultOptions [(0, AddFiles [("id-a", fileA)])])) !! i
          = Some f' ∧
          status f' = Failed ∧ error f' = Some (message parseError) ∧
          retryCount f' = maxRetries defaultOptions.
Proof.
  apply (terminal_failure_sets_maxRetries defaultOptions 50 "id-a" garbled
           (run defaultOptions [(0, AddFiles [("id-a", fileA)])]) parseError).
  - unfold defaultOptions, MAX_RETRY_ATTEMPTS. simpl. lia.
  - apply (bool_decide_unpack _). vm_compute. exact I.
  - reflexivity.
  - reflexivity.
Defined.

(** C5 as stated fails on the count: the first attempt fails with
    PARSE_ERROR, which is not retryable, no other attempt is made, and
    the item is Failed with retryCount 3, not 0. *)
Lemma terminal_failure_retryCount_three :
  attemptRetryable (uploadFile "id-a" (garbled 0)) = Some (VBool false) ∧
  attempts (uploadWithRetry "id-a" garbled (maxRetries defaultOptions)) = [0] ∧
  files (run defaultOptions
           [(0, AddFiles [("id-a", fileA)]); (50, Settle "id-a" garbled)])
  = [failedA] ∧
  status failedA = Failed ∧ retryCount failedA = 3 ∧ retryCount failedA ≠ 0.
Proof. repeat (split; [reflexivity|]). discriminate. Qed.

Lemma markFailedDeletes_fmap failedIds (prev : list FileUploadItem) :
  markFailedDeletes failedIds prev =
  (fun f => if bool_decide (id f ∈ failedIds) then markDeleteFailed f else f)
    <$> prev.
Proof.
  unfold markFailedDeletes. case_bool_decide as Hlen; [done|].
  destruct failedIds as [|x failedIds]; [|simpl in Hlen; lia].
  induction prev as [|f prev IH]; [done|].
  rewrite fmap_cons, <- IH.
  rewrite bool_decide_eq_false_2; [done|]. apply not_elem_of_nil.
Qed.

(** The ids in [failedDeleteIds] are those of the requests that
    failed. *)
Lemma elem_of_failedDeleteIds closure deleteFile x :
  x ∈ failedDeleteIds closure deleteFile ↔ deletionFailed closure deleteFile x.
Proof.
  unfold failedDeleteIds, deleteRequests, deletionFailed.
  rewrite list_elem_of_fmap. split.
  - intros ([ok g] & -> & Ha). apply list_elem_of_filter in Ha as [Hok Ha].
    apply elem_of_lookup_imap in Ha as (k & g' & [= -> ->] & Hk).
    by exists k, g'.
  - intros (k & g & Hk & <- & Hdel).
    exists (deleteFile k (s3Key g), g). split; [done|].
    apply list_elem_of_filter. split; [done|].
    by apply (elem_of_lookup_imap_2 (fun k f => (deleteFile k (s3Key f), f))).
Qed.

(** The two [setFiles] of clearCompleted, item by item. *)
Lemma clear_filter_omap failedIds (l : list FileUploadItem) :
  filter (keptByClear failedIds)
    ((fun f => if bool_decide (id f ∈ failedIds) then markDeleteFailed f else f)
       <$> l)
  = omap (clearedItem failedIds) l.
Proof.
  induction l as [|f l IH]; [done|].
  rewrite fmap_cons, filter_cons. cbn [omap list_omap]. rewrite IH. clear IH.
  unfold clearedItem. cbv zeta.
  set (f' := if bool_decide (id f ∈ failedIds) then markDeleteFailed f else f).
  assert (status f' = status f ∧ id f' = id f) as [Hst Hid]
    by (unfold f'; by case_bool_decide).
  destruct (decide (keptByClear failedIds f')) as [Hk|Hk];
    unfold keptByClear in Hk; rewrite Hst, Hid in Hk.
  - destruct Hk as [[Hc Hin]|[Hc Hf]].
    + rewrite Hc. by rewrite bool_decide_eq_true_2.
    + by destruct (status f).
  - destruct (status f) eqn:Hs; try done.
    + exfalso. apply Hk. by right.
    + exfalso. apply Hk. by right.
    + case_bool_decide; [|done]. exfalso. apply Hk. by left.
Qed.

Lemma files_clearCompleted closure deleteFile s :
  files (clearCompleted closure deleteFile s)
  = omap (clearedItem (failedDeleteIds closure deleteFile)) (files s).
Proof.
  unfold clearCompleted. simpl. rewrite markFailedDeletes_fmap.
  apply clear_filter_omap.
Qed.

(** C2, as the code has it. clearCompleted asks the storage to delete
    the items that are Completed with a key in the collection it reads
    when it is called, and writes when the last answer has come, to the
    collection of that moment, whatever happened to it meanwhile. It
    then keeps the items that are Pending or Uploading, keeps the items
    that are Completed and whose deletion was asked for and failed, and
    removes every other item: the Completed items whose deletion
    succeeded or was never asked for, and the Failed items. Every item
    it keeps whose id had a failed deletion gets the delete-failure
    error; the other items it keeps are untouched, and so is the set
    [uploading]. *)
Theorem clearCompleted_items closure deleteFile s :
  (∀ x, x ∈ failedDeleteIds closure deleteFile
        ↔ deletionFailed closure deleteFile x) ∧
  files (clearCompleted closure deleteFile s)
  = omap (clearedItem (failedDeleteIds closure deleteFile)) (files s) ∧
  uploading (clearCompleted closure deleteFile s) = uploading s.
Proof.
  split; [apply elem_of_failedDeleteIds|].
  split; [apply files_clearCompleted|done].
Qed.

(** C2 as stated fails: clearCompleted does not leave a Failed item
    untouched, it removes it. *)
Lemma clearCompleted_removes_failed :
  files (run defaultOptions
           [(0, AddFiles [("id-a", fileA)]); (50, Settle "id-a" garbled)])
  = [failedA] ∧
  status failedA = Failed ∧
  files (clearCompleted [failedA] everyDeleteSucceeds
           (run defaultOptions
              [(0, AddFiles [("id-a", fileA)]); (50, Settle "id-a" garbled)]))
  = [].
Proof. repeat split. Qed.

(** A Completed item whose deletion fails is kept, with the error. *)
Example clearCompleted_keeps_failed_deletion :
  files (clearCompleted [completedA] everyDeleteFails
           (run defaultOptions uploadedTrace))
  = [markDeleteFailed completedA].
Proof. reflexivity. Qed.

(** An upload that completes while clearCompleted waits for the storage
    is removed without a request for its file: the call read the item as
    Uploading, and writes to a collection in which it is Completed. *)
Example clearCompleted_removes_late_completion :
  completedFiles [uploadingA] = [] ∧
  files (clearCompleted [uploadingA] everyDeleteSucceeds
           (run defaultOptions uploadedTrace))
  = [].
Proof. split; reflexivity. Qed.

End QueueProperties.

(** ** Properties of the runs of the queue *)

Module RunProperties.

Import UploadService UseUploadQueue QueueSpec QueueProperties.

(** *** Ids *)

Lemma ids_mapId fileId g fs :
  (∀ f, id (g f) = id f) → ids (mapId fileId g fs) = ids fs.
Proof.
  intros Hg. unfold ids, mapId. rewrite <- list_fmap_compose.
  apply list_fmap_ext. intros i f _. simpl. by case_bool_decide.
Qed.

(** Under distinct ids an item is known by its id. *)
Lemma ids_inj fs f g :
  NoDup (ids fs) → f ∈ fs → g ∈ fs → id f = id g → f = g.
Proof.
  intros Hnd Hf Hg Hid.
  apply list_elem_of_lookup in Hf as [i Hi].
  apply list_elem_of_lookup in Hg as [j Hj].
  assert (i = j) as ->; [|congruence].
  eapply NoDup_lookup; [exact Hnd| |].
  - unfold ids. by rewrite list_lookup_fmap, Hi.
  - unfold ids. rewrite list_lookup_fmap, Hj. simpl. by rewrite Hid.
Qed.

Lemma findId_elem_of fs f :
  f ∈ fs → ∃ f', findId (id f) fs = Some f' ∧ f' ∈ fs ∧ id f' = id f.
Proof.
  intros Hf. destruct (findId (id f) fs) as [f'|] eqn:Hfind.
  - exists f'. split; [done|]. by apply findId_Some.
  - unfold findId in Hfind.
    apply list_elem_of_In in Hf.
    apply (find_none _ _ Hfind) in Hf.
    by rewrite bool_decide_eq_true_2 in Hf.
Qed.

(** *** The admissions of one run of processLoop *)

Lemma markUploading_idem now f :
  markUploading now (markUploading now f) = markUploading now f.
Proof. done. Qed.

Lemma uploadFileBegin_found cur now g s :
  g ∈ cur →
  files (uploadFileBegin cur now (id g) s)
  = mapId (id g) (markUploading now) (files s) ∧
  uploading (uploadFileBegin cur now (id g) s) = uploading s ∪ {[id g]} ∧
  isProcessing (uploadFileBegin cur now (id g) s) = isProcessing s ∧
  processingRef (uploadFileBegin cur now (id g) s) = processingRef s.
Proof.
  intros Hg. destruct (findId_elem_of cur g Hg) as (f' & Hfind & _ & Hid).
  unfold uploadFileBegin. rewrite Hfind. simpl. by rewrite Hid.
Qed.

(** What the [for] loop over [filesToUpload] does to the state. *)
Lemma foldl_uploadFileBegin cur now (L : list FileUploadItem) s :
  (∀ g, g ∈ L → g ∈ cur) →
  let s1 := foldl (fun acc f => uploadFileBegin cur now (id f) acc) s L in
  files s1 =
    ((fun f => if bool_decide (id f ∈ ids L) then markUploading now f else f)
       <$> files s) ∧
  uploading s1 = uploading s ∪ list_to_set (ids L) ∧
  isProcessing s1 = isProcessing s ∧
  processingRef s1 = processingRef s.
Proof.
  revert s. induction L as [|g L IH]; intros s Hcur.
  - cbn [foldl]. split; [|split; [set_solver|done]].
    rewrite <- (list_fmap_id (files s)) at 1.
    apply list_fmap_ext. intros i f _.
    rewrite bool_decide_eq_false_2; [done|]. apply not_elem_of_nil.
  - cbn [foldl].
    destruct (uploadFileBegin_found cur now g s) as (Hf0 & Hu0 & Hp0 & Hr0);
      [apply Hcur; left|].
    destruct (IH (uploadFileBegin cur now (id g) s)) as (Hf & Hu & Hp & Hr);
      [intros h Hh; apply Hcur; by right|].
    cbv zeta. rewrite Hf, Hu, Hp, Hr, Hf0, Hu0, Hp0, Hr0.
    split; [|split; [set_solver|done]].
    unfold mapId. rewrite <- list_fmap_compose.
    apply list_fmap_ext. intros i f _. simpl.
    destruct (decide (id f = id g)) as [Heq|Hne].
    + rewrite (bool_decide_eq_true_2 (id f = id g)) by done.
      rewrite (bool_decide_eq_true_2 (id f ∈ id g :: ids L)) by (rewrite Heq; left).
      simpl. by case_bool_decide.
    + rewrite (bool_decide_eq_false_2 (id f = id g)) by done.
      rewrite (bool_decide_ext (id f ∈ id g :: ids L) (id f ∈ ids L)); [done|].
      set_solver.
Qed.

Lemma filesToUpload_pending o fs u g :
  g ∈ filesToUpload o fs u → g ∈ fs ∧ status g = Pending.
Proof.
  unfold filesToUpload, pendingFiles.
  destruct (_ && _); [|by intros ?%elem_of_nil].
  intros Hg%elem_of_take. destruct Hg as (i & Hi & _).
  apply list_elem_of_lookup_2 in Hi. apply list_elem_of_filter in Hi. tauto.
Qed.

(** The admissions fit in the slots the set [uploading] leaves. *)
Lemma length_filesToUpload o fs u :
  Z.of_nat (size u) ≤ maxConcurrent o →
  Z.of_nat (size u) + Z.of_nat (length (filesToUpload o fs u)) ≤ maxConcurrent o.
Proof.
  intros Hsize. unfold filesToUpload, availableSlots.
  destruct (_ && _) eqn:Hguard; [|simpl; lia].
  apply andb_true_iff in Hguard as [Hslots _]. apply Z.ltb_lt in Hslots.
  pose proof (firstn_le_length
                (Z.to_nat (maxConcurrent o - Z.of_nat (size u)))
                (pendingFiles fs)).
  unfold availableSlots in Hslots. lia.
Qed.

Lemma state_processLoop o now s :
  files (processLoop o now s) =
    ((fun f =>
        if bool_decide (id f ∈ ids (filesToUpload o (files s) (uploading s)))
        then markUploading now f else f) <$> files s) ∧
  uploading (processLoop o now s) =
    uploading s ∪ list_to_set (ids (filesToUpload o (files s) (uploading s))).
Proof.
  unfold processLoop.
  destruct (foldl_uploadFileBegin (files s) now
              (filesToUpload o (files s) (uploading s)) s)
    as (Hf & Hu & _ & _).
  { intros g Hg. by apply filesToUpload_pending in Hg as [? _]. }
  cbv zeta in Hf, Hu.
  destruct (processingRef _); [destruct (hasWork _ _)|]; simpl; by rewrite Hf, Hu.
Qed.

Lemma effects_cases o now s :
  effects o now s = s ∨
  effects o now s = processLoop o now (setProcessingRef true s).
Proof.
  unfold effects, processQueue.
  destruct (isProcessing s), (processingRef s); simpl; auto.
Qed.

(** *** The concurrency ceiling *)

Lemma size_union_list_to_set (u : gset string) (l : list string) :
  (size (u ∪ list_to_set l) ≤ size u + length l)%nat.
Proof.
  induction l as [|x l IH]; simpl.
  - rewrite (right_id_L ∅ (∪)). lia.
  - assert (u ∪ ({[x]} ∪ list_to_set l) = {[x]} ∪ (u ∪ list_to_set l)) as ->
      by set_solver.
    destruct (decide (x ∈ u ∪ list_to_set l)) as [Hin|Hnin].
    + assert ({[x]} ∪ (u ∪ list_to_set l) = u ∪ list_to_set l) as ->
        by set_solver.
      lia.
    + rewrite size_union by set_solver. rewrite size_singleton. lia.
Qed.

Lemma withinCeiling_processLoop o now s :
  withinCeiling o s → withinCeiling o (processLoop o now s).
Proof.
  intros [Hsub Hsize]. unfold withinCeiling.
  destruct (state_processLoop o now s) as [-> ->]. split.
  - intros f' Hf' Hst.
    apply list_elem_of_fmap in Hf' as (f & -> & Hf).
    case_bool_decide as Hin.
    + apply elem_of_union_r, elem_of_list_to_set. done.
    + apply elem_of_union_l. by apply Hsub.
  - pose proof (size_union_list_to_set (uploading s)
                  (ids (filesToUpload o (files s) (uploading s)))) as Hle.
    pose proof (length_filesToUpload o (files s) (uploading s) Hsize) as Hlen.
    unfold ids in Hle |- *. rewrite length_fmap in Hle. lia.
Qed.

Lemma withinCeiling_ext o s s' :
  files s' = files s → uploading s' = uploading s →
  withinCeiling o s → withinCeiling o s'.
Proof. unfold withinCeiling. by intros -> ->. Qed.

Lemma withinCeiling_effects o now s :
  withinCeiling o s → withinCeiling o (effects o now s).
Proof.
  intros Hs. destruct (effects_cases o now s) as [-> | ->]; [done|].
  apply withinCeiling_processLoop. by eapply withinCeiling_ext.
Qed.

Lemma withinCeiling_removeFile o closure deleteFile fileId s :
  withinCeiling o s → withinCeiling o (removeFile closure deleteFile fileId s).
Proof.
  intros [Hsub Hsize]. unfold removeFile. destruct (_ && _).
  - split; [|done]. simpl. intros f' Hf' Hst.
    apply list_elem_of_fmap in Hf' as (f & -> & Hf).
    case_bool_decide; by apply (Hsub f).
  - split; simpl.
    + intros f Hf Hst. apply list_elem_of_filter in Hf as [Hne Hf].
      apply elem_of_difference. split; [by apply Hsub|].
      by intros ?%elem_of_singleton.
    + pose proof (subseteq_size (uploading s ∖ {[fileId]}) (uploading s)) as Hle.
      assert (uploading s ∖ {[fileId]} ⊆ uploading s) as Hs by set_solver.
      specialize (Hle Hs). lia.
Qed.

Lemma withinCeiling_clearCompleted o closure deleteFile s :
  withinCeiling o s → withinCeiling o (clearCompleted closure deleteFile s).
Proof.
  intros [Hsub Hsize].
  unfold clearCompleted. split; [|done]. simpl. intros f' Hf' Hst.
  apply list_elem_of_filter in Hf' as [_ Hf'].
  rewrite markFailedDeletes_fmap in Hf'.
  apply list_elem_of_fmap in Hf' as (f & -> & Hf).
  case_bool_decide; by apply (Hsub f).
Qed.

Lemma withinCeiling_handle o now e s :
  isStop e = false → withinCeiling o s → withinCeiling o (handle o now e s).
Proof.
  intros Hstop [Hsub Hsize].
  destruct e as [newFiles|fileId|fileId deleteFile|deleteFile| | |
                 |fileId p|fileId xhr
                 |closure fileId deleteFile|closure deleteFile];
    simpl; try done.
  - (* addFiles *)
    unfold addFiles. apply (withinCeiling_ext o
      (setFiles (fun prev => (prev ++ (newItem <$> newFiles))%list) s));
      [by destruct (_ && _)..|].
    split; [|done]. simpl. intros f Hf Hst.
    apply elem_of_app in Hf as [Hf|Hf]; [by apply Hsub|].
    apply list_elem_of_fmap in Hf as (x & -> & _). done.
  - (* retryFile *)
    unfold retryFile. apply (withinCeiling_ext o
      (setFiles (mapId fileId markPending) s)); [by destruct (negb _)..|].
    split; [|done]. simpl. intros f' Hf' Hst.
    apply list_elem_of_fmap in Hf' as (f & -> & Hf).
    case_bool_decide; [done|]. by apply (Hsub f).
  - (* removeFile *)
    by apply withinCeiling_removeFile.
  - (* clearCompleted *)
    by apply withinCeiling_clearCompleted.
  - (* the timer *)
    destruct (processingRef s); [|done]. by apply withinCeiling_processLoop.
  - (* progress *)
    case_bool_decide; [|done]. split; [|done]. simpl. intros f' Hf' Hst.
    apply list_elem_of_fmap in Hf' as (f & -> & Hf).
    case_bool_decide; by apply (Hsub f).
  - (* settlement *)
    case_bool_decide; [|done].
    apply (withinCeiling_ext o
      (uploadFileSettle o now fileId
         (settled (uploadWithRetry fileId xhr (maxRetries o))) s)); [done..|].
    unfold uploadFileSettle. split.
    + intros f' Hf' Hst.
      assert (∃ f, f ∈ files s ∧ id f ≠ fileId ∧ f' = f) as (f & Hf & Hne & ->).
      { destruct (settled _); simpl in Hf';
          apply list_elem_of_fmap in Hf' as (f & -> & Hf);
          case_bool_decide; try done; by exists f. }
      assert (id f ∈ uploading s ∖ {[fileId]}) as Hin.
      { apply elem_of_difference. split; [by apply Hsub|].
        by intros ?%elem_of_singleton. }
      by destruct (settled _).
    + assert (uploading s ∖ {[fileId]} ⊆ uploading s) as Hs by set_solver.
      apply subseteq_size in Hs.
      destruct (settled _); simpl; lia.
  - (* removeFile, late *)
    by apply withinCeiling_removeFile.
  - (* clearCompleted, late *)
    by apply withinCeiling_clearCompleted.
Qed.

Lemma withinCeiling_run o trace :
  0 ≤ maxConcurrent o →
  Forall (fun te => isStop te.2 = false) trace →
  withinCeiling o (run o trace).
Proof.
  intros Hmax. induction trace as [|te trace IH] using rev_ind; intros Hstop.
  - split; [by intros f ?%elem_of_nil|].
    change (uploading (run o [])) with (∅ : gset string).
    rewrite size_empty. lia.
  - apply Forall_app in Hstop as [Htrace Hte].
    rewrite Forall_singleton in Hte.
    unfold run. rewrite foldl_snoc. unfold step at 1.
    apply withinCeiling_effects, withinCeiling_handle; [exact Hte|].
    by apply IH.
Qed.

(** *** The collection is kept in enqueue order *)

Lemma ids_fmap (h : FileUploadItem -> FileUploadItem) fs :
  (∀ f, id (h f) = id f) → ids (h <$> fs) = ids fs.
Proof.
  intros Hh. unfold ids. rewrite <- list_fmap_compose.
  apply list_fmap_ext. intros i f _. apply Hh.
Qed.

Lemma ids_processLoop o now s :
  ids (files (processLoop o now s)) = ids (files s).
Proof.
  destruct (state_processLoop o now s) as [-> _].
  apply ids_fmap. intros f. by case_bool_decide.
Qed.

Lemma ids_effects o now s : ids (files (effects o now s)) = ids (files s).
Proof.
  destruct (effects_cases o now s) as [-> | ->]; [done|].
  by rewrite ids_processLoop.
Qed.

Lemma ids_removeFile closure deleteFile fileId s :
  ids (files (removeFile closure deleteFile fileId s)) `sublist_of` ids (files s).
Proof.
  unfold removeFile. destruct (_ && _); simpl.
  - by rewrite ids_mapId.
  - unfold ids. apply fmap_sublist, sublist_filter.
Qed.

Lemma ids_clearCompleted closure deleteFile s :
  ids (files (clearCompleted closure deleteFile s)) `sublist_of` ids (files s).
Proof.
  unfold clearCompleted. simpl. rewrite markFailedDeletes_fmap.
  etrans; [apply fmap_sublist, sublist_filter|].
  fold (ids ((fun f => if bool_decide (id f ∈ failedDeleteIds closure deleteFile)
                       then markDeleteFailed f else f) <$> files s)).
  rewrite ids_fmap; [done|]. intros f. by case_bool_decide.
Qed.

Lemma ids_handle o now e s :
  ids (files (handle o now e s)) `sublist_of`
  ids (files s) ++ enqueuedIds [(now, e)].
Proof.
  destruct e as [newFiles|fileId|fileId deleteFile|deleteFile| | |
                 |fileId p|fileId xhr
                 |closure fileId deleteFile|closure deleteFile];
    unfold enqueuedIds; simpl; rewrite ?app_nil_r.
  - unfold addFiles.
    assert (ids (files (setFiles
              (fun prev => (prev ++ (newItem <$> newFiles))%list) s))
            = (ids (files s) ++ newFiles.*1)%list) as Hids.
    { simpl. unfold ids. rewrite fmap_app, <- list_fmap_compose. done. }
    destruct (_ && _); simpl in *; by rewrite Hids.
  - unfold retryFile.
    destruct (negb _); simpl; by rewrite ids_mapId.
  - apply ids_removeFile.
  - apply ids_clearCompleted.
  - done.
  - done.
  - destruct (processingRef s); [|done]. by rewrite ids_processLoop.
  - case_bool_decide; [|done]. unfold uploadFileProgress. simpl.
    by rewrite ids_mapId.
  - case_bool_decide; [|done]. unfold uploadFileSettle.
    destruct (settled _); simpl; by rewrite ids_mapId.
  - apply ids_removeFile.
  - apply ids_clearCompleted.
Qed.

Lemma enqueuedIds_snoc trace te :
  enqueuedIds (trace ++ [te]) = (enqueuedIds trace ++ enqueuedIds [te])%list.
Proof. unfold enqueuedIds. apply bind_app. Qed.

Lemma ids_run o trace :
  ids (files (run o trace)) `sublist_of` enqueuedIds trace.
Proof.
  induction trace as [|[now e] trace IH] using rev_ind; [done|].
  unfold run. rewrite foldl_snoc, enqueuedIds_snoc. unfold step at 1.
  rewrite ids_effects. etrans; [apply ids_handle|].
  apply sublist_app; [exact IH|done].
Qed.

Lemma NoDup_ids_run o trace :
  NoDup (enqueuedIds trace) → NoDup (ids (files (run o trace))).
Proof. intros Hnd. eapply sublist_NoDup; [exact Hnd|apply ids_run]. Qed.

(** Under distinct ids the Uploading items are at most as many as the
    ids in the set [uploading] that holds them. *)
Lemma countStatus_Uploading_size fs (u : gset string) :
  NoDup (ids fs) →
  (∀ f, f ∈ fs → status f = Uploading → id f ∈ u) →
  (countStatus Uploading fs ≤ size u)%nat.
Proof.
  intros Hnd Hsub.
  assert (NoDup (uploadingIds fs)) as Hnd'.
  { eapply sublist_NoDup; [exact Hnd|].
    unfold uploadingIds, ids. apply fmap_sublist, sublist_filter. }
  unfold countStatus.
  rewrite <- (length_fmap id), <- (size_list_to_set (C := gset string)) by done.
  apply subseteq_size. intros x Hx.
  apply elem_of_list_to_set, list_elem_of_fmap in Hx as (f & -> & Hf).
  apply list_elem_of_filter in Hf as [Hst Hf]. by apply Hsub.
Qed.

(** C1: along every run without stopProcessing, with an integer ceiling
    that is not negative and distinct generated ids, the Uploading items
    are at most maxConcurrent, and the run of processLoop that comes next
    admits at most maxConcurrent minus the number of Uploading items. *)
Theorem uploading_within_ceiling o trace :
  0 ≤ maxConcurrent o →
  NoDup (enqueuedIds trace) →
  Forall (fun te => isStop te.2 = false) trace →
  Z.of_nat (uploadingCount (stats (files (run o trace)))) ≤ maxConcurrent o ∧
  Z.of_nat (length (filesToUpload o (files (run o trace))
                                    (uploading (run o trace))))
  ≤ maxConcurrent o - Z.of_nat (uploadingCount (stats (files (run o trace)))).
Proof.
  intros Hmax Hnd Hstop.
  destruct (withinCeiling_run o trace Hmax Hstop) as [Hsub Hsize].
  pose proof (countStatus_Uploading_size _ _ (NoDup_ids_run o trace Hnd) Hsub)
    as Hcount.
  pose proof (length_filesToUpload o (files (run o trace)) _ Hsize) as Hlen.
  simpl. lia.
Qed.

Lemma uploading_within_ceiling_witness :
  Z.of_nat (uploadingCount (stats (files (run defaultOptions fiveFilesTrace))))
  ≤ maxConcurrent defaultOptions ∧
  Z.of_nat (length (filesToUpload defaultOptions
                      (files (run defaultOptions fiveFilesTrace))
                      (uploading (run defaultOptions fiveFilesTrace))))
  ≤ maxConcurrent defaultOptions
    - Z.of_nat (uploadingCount (stats (files (run defaultOptions fiveFilesTrace)))).
Proof.
  apply (uploading_within_ceiling defaultOptions fiveFilesTrace).
  - vm_compute. discriminate.
  - apply (bool_decide_unpack _). vm_compute. exact I.
  - repeat constructor.
Defined.

(** Five files with a ceiling of two: two are admitted at once and three
    wait; when one upload has settled the next run of processLoop admits
    the oldest Pending item. *)
Example five_files_ceiling_two :
  status <$> files (run defaultOptions [(0, AddFiles fiveFiles)])
  = [Uploading; Uploading; Pending; Pending; Pending] ∧
  status <$> files (run defaultOptions fiveFilesTrace)
  = [Completed; Uploading; Uploading; Pending; Pending].
Proof. split; reflexivity. Qed.

(** *** Errors on items *)









(** The delete-failure error is not bound to Completed items: an item
    that is retried while its removal waits for the storage carries it
    as a Pending item, and as an Uploading one after the next run of
    processLoop. *)
Example retried_item_carries_delete_failure :
  files (run defaultOptions retriedWhileRemoving) = [pendingWithError] ∧
  (status <$> files (run defaultOptions (retriedWhileRemoving ++ [(100, Timer)]))
   = [Uploading]) ∧
  (error <$> files (run defaultOptions (retriedWhileRemoving ++ [(100, Timer)]))
   = [Some deleteFailure]).
Proof. repeat split. Qed.

(** *** Admission order *)

(** The ids of a list that is in enqueue order: what comes earlier in
    the list was enqueued earlier. *)
Lemma sublist_before (fs1 fs2 : list FileUploadItem) a g enqueued :
  ids (fs1 ++ a :: fs2) `sublist_of` enqueued →
  (g ∈ fs1 → before (id g) (id a) enqueued) ∧
  (g ∈ fs2 → before (id a) (id g) enqueued).
Proof.
  assert (∀ (l1 l2 l3 : list string) x y,
            l1 ++ x :: l2 ++ y :: l3 `sublist_of` enqueued →
            before x y enqueued) as Hbefore.
  { intros l1 l2 l3 x y Hsub.
    apply sublist_app_l in Hsub as (k1 & k2 & -> & _ & Hsub).
    apply sublist_cons_l in Hsub as (k3 & k4 & -> & Hsub).
    apply sublist_app_l in Hsub as (k5 & k6 & -> & _ & Hsub).
    apply sublist_cons_l in Hsub as (k7 & k8 & -> & _).
    exists (k1 ++ k3), (k5 ++ k7), k8. by rewrite <- !app_assoc. }
  intros Hsub. unfold ids in Hsub. rewrite fmap_app, fmap_cons in Hsub.
  split; intros Hg; apply list_elem_of_split in Hg as (p & q & ->).
  - rewrite fmap_app, fmap_cons, <- app_assoc in Hsub.
    apply (Hbefore (id <$> p) (id <$> q) (id <$> fs2)). exact Hsub.
  - rewrite fmap_app, fmap_cons in Hsub.
    apply (Hbefore (id <$> fs1) (id <$> p) (id <$> q)). exact Hsub.
Qed.

(** What a run of processLoop makes of a Pending item: it is admitted
    exactly when fewer Pending items than there are slots come before it
    in the collection. *)
Lemma processLoop_admits o now s (m1 m2 : list FileUploadItem) a :
  NoDup (ids (files s)) →
  files s = m1 ++ a :: m2 →
  status a = Pending →
  files (processLoop o now s) !! length m1 =
  Some (if bool_decide (Z.of_nat (length (pendingFiles m1))
                        < availableSlots o (uploading s))
        then markUploading now a else a).
Proof.
  intros Hnd Hfs Hst.
  destruct (state_processLoop o now s) as [-> _].
  rewrite list_lookup_fmap. rewrite Hfs at 1.
  rewrite list_lookup_middle by done. cbn [fmap option_fmap option_map].
  f_equal.
  assert (a ∈ files s) as Ha.
  { rewrite Hfs. apply elem_of_app. right. left. }
  assert (pendingFiles (files s) = pendingFiles m1 ++ a :: pendingFiles m2)
    as Hpend.
  { unfold pendingFiles. rewrite Hfs, filter_app, filter_cons.
    by rewrite decide_True. }
  assert (NoDup (pendingFiles (files s))) as Hndp.
  { unfold pendingFiles. apply NoDup_filter. by eapply NoDup_fmap_1. }
  assert (id a ∈ ids (filesToUpload o (files s) (uploading s))
          ↔ Z.of_nat (length (pendingFiles m1)) < availableSlots o (uploading s))
    as Hiff.
  { split.
    - intros Hin. apply list_elem_of_fmap in Hin as (g & Hid & Hg).
      pose proof (filesToUpload_pending _ _ _ _ Hg) as [Hgin _].
      assert (a = g) as <- by (by eapply ids_inj).
      unfold filesToUpload in Hg.
      destruct (0 <? availableSlots o (uploading s)) eqn:Hslots;
        [|by apply elem_of_nil in Hg].
      destruct (0 <? Z.of_nat (length (pendingFiles (files s))));
        [|by apply elem_of_nil in Hg].
      simpl in Hg. apply elem_of_take in Hg as (i & Hi & Hlt).
      assert (pendingFiles (files s) !! length (pendingFiles m1) = Some a)
        as Hpos by (rewrite Hpend; by apply list_lookup_middle).
      pose proof (NoDup_lookup _ _ _ _ Hndp Hi Hpos) as ->.
      apply Z.ltb_lt in Hslots. lia.
    - intros Hlt. apply list_elem_of_fmap_2.
      unfold filesToUpload.
      replace (0 <? availableSlots o (uploading s)) with true
        by (symmetry; apply Z.ltb_lt; lia).
      replace (0 <? Z.of_nat (length (pendingFiles (files s)))) with true.
      2:{ symmetry. apply Z.ltb_lt. rewrite Hpend, length_app. simpl. lia. }
      simpl. apply elem_of_take. exists (length (pendingFiles m1)). split.
      + rewrite Hpend. by apply list_lookup_middle.
      + lia. }
  by rewrite (bool_decide_ext _ _ Hiff).
Qed.

(** The collection a run of processLoop reads is in enqueue order. *)
Lemma ids_evaluated o trace s :
  evaluated o trace s → ids (files s) `sublist_of` enqueuedIds trace.
Proof.
  intros [->|(trace' & [now e] & -> & ->)]; [apply ids_run|].
  rewrite enqueuedIds_snoc. simpl.
  etrans; [apply ids_handle|]. apply sublist_app; [apply ids_run|done].
Qed.

(** C8: at every run of processLoop, be it the timer's or the one the
    effect starts, and with distinct generated ids, the collection it
    reads is in enqueue order, and it admits a Pending item exactly when
    fewer Pending items than there are free slots were enqueued before
    it: the item becomes Uploading then, and is left as it is otherwise.
    So a Pending item that was enqueued later is admitted only if the
    one enqueued earlier is admitted by the same run. *)
Theorem admission_fifo o trace s now m1 a m2 :
  NoDup (enqueuedIds trace) →
  evaluated o trace s →
  files s = m1 ++ a :: m2 →
  status a = Pending →
  (∀ g, g ∈ m1 → before (id g) (id a) (enqueuedIds trace)) ∧
  (∀ g, g ∈ m2 → before (id a) (id g) (enqueuedIds trace)) ∧
  files (processLoop o now s) !! length m1 =
    Some (if bool_decide (Z.of_nat (length (pendingFiles m1))
                          < availableSlots o (uploading s))
          then markUploading now a else a) ∧
  (∀ j b, m2 !! j = Some b → status b = Pending →
     files (processLoop o now s) !! (length m1 + 1 + j)%nat
     = Some (markUploading now b) →
     files (processLoop o now s) !! length m1 = Some (markUploading now a)).
Proof.
  intros Hnd Hev Hfs Hst.
  pose proof (ids_evaluated o trace s Hev) as Hsub.
  assert (NoDup (ids (files s))) as Hnds by (by eapply sublist_NoDup).
  split; [|split; [|split]].
  - intros g Hg. rewrite Hfs in Hsub. by apply (sublist_before m1 m2 a g).
  - intros g Hg. rewrite Hfs in Hsub. by apply (sublist_before m1 m2 a g).
  - by apply (processLoop_admits o now s m1 m2 a).
  - intros j b Hb Hstb Hadm.
    rewrite (processLoop_admits o now s m1 m2 a) by done.
    assert (files s = (m1 ++ a :: take j m2) ++ b :: drop (S j) m2) as Hfs'.
    { rewrite Hfs, <- app_assoc. simpl. do 2 f_equal.
      rewrite <- (take_drop_middle m2 j b Hb) at 1. done. }
    assert (length (m1 ++ a :: take j m2) = (length m1 + 1 + j)%nat) as Hlen.
    { rewrite length_app. simpl. rewrite length_take_le; [lia|].
      apply lookup_lt_Some in Hb. lia. }
    rewrite <- Hlen in Hadm.
    rewrite (processLoop_admits o now s _ _ b Hnds Hfs' Hstb) in Hadm.
    case_bool_decide as Hlt.
    + rewrite bool_decide_eq_true_2; [done|].
      unfold pendingFiles in Hlt.
      rewrite filter_app, filter_cons, decide_True, length_app in Hlt by done.
      simpl in Hlt. unfold pendingFiles. lia.
    + injection Hadm as Hadm. rewrite Hadm in Hstb. done.
Qed.

Lemma admission_fifo_witness :
  (∀ g, g ∈ [newItem ("id-a", fileA)] →
        before (id g) (id (newItem ("id-b", fileB))) (enqueuedIds enqueuedTrace)) ∧
  (∀ g, g ∈ [newItem ("id-c", fileC)] →
        before (id (newItem ("id-b", fileB))) (id g) (enqueuedIds enqueuedTrace)) ∧
  files (processLoop manualOptions 10 (run manualOptions enqueuedTrace))
    !! length [newItem ("id-a", fileA)] =
    Some (if bool_decide
               (Z.of_nat (length (pendingFiles [newItem ("id-a", fileA)]))
                < availableSlots manualOptions
                    (uploading (run manualOptions enqueuedTrace)))
          then markUploading 10 (newItem ("id-b", fileB))
          else newItem ("id-b", fileB)) ∧
  (∀ j b, [newItem ("id-c", fileC)] !! j = Some b → status b = Pending →
     files (processLoop manualOptions 10 (run manualOptions enqueuedTrace))
       !! (length [newItem ("id-a", fileA)] + 1 + j)%nat
     = Some (markUploading 10 b) →
     files (processLoop manualOptions 10 (run manualOptions enqueuedTrace))
       !! length [newItem ("id-a", fileA)]
     = Some (markUploading 10 (newItem ("id-b", fileB)))).
Proof.
  apply (admission_fifo manualOptions enqueuedTrace
           (run manualOptions enqueuedTrace) 10
           [newItem ("id-a", fileA)] (newItem ("id-b", fileB))
           [newItem ("id-c", fileC)]).
  - apply (bool_decide_unpack _). vm_compute. exact I.
  - left. reflexivity.
  - reflexivity.
  - reflexivity.
Defined.

(** Three Pending items and two free slots: the run of processLoop
    admits the two that were enqueued first. *)
Example admission_oldest_first :
  status <$> files (run manualOptions enqueuedTrace)
  = [Pending; Pending; Pending] ∧
  status <$> files (processLoop manualOptions 10
                      (run manualOptions enqueuedTrace))
  = [Uploading; Uploading; Pending].
Proof. split; reflexivity. Qed.

(** Why the runs of the ceiling exclude stopProcessing: it empties the
    set [uploading] and leaves the status of the items, so the run of
    processLoop after a restart counts no upload and admits again. *)
Remark restart_exceeds_ceiling :
  status <$> files (run defaultOptions restartedTrace)
  = [Uploading; Uploading; Uploading] ∧
  maxConcurrent defaultOptions = 2.
Proof. split; reflexivity. Qed.

End RunProperties.

(** ** Further properties of the transfer client *)

Module UploadServiceMore.

Import UploadService UseUploadQueue QueueSpec UploadServiceState MoreSpec.
Import UploadServiceProperties QueueProperties.

(** X1: an attempt resolves only on a response with status 200 whose
    body has a truthy [success] and a truthy [data]; the result then
    carries the file id of the call and the body's [data] and [meta]. *)
Theorem uploadFile_resolves_iff fid o r :
  uploadFile fid o = inl r ↔
  ∃ statusText body,
    o = Load 200 statusText (Some body) ∧
    truthy (optprop body "success") = true ∧
    truthy (optprop body "data") = true ∧
    r = {| success := true; fileId := fid;
           data := optprop body "data"; meta := optprop body "meta" |}.
Proof.
  split.
  - destruct o as [status statusText [body|]| | | |]; simpl; try done.
    + destruct (Z.eqb_spec status 200) as [->|]; [|done].
      simpl. unfold onload200.
      destruct (prop body "success") as [ok|] eqn:Hok; [|done]. simpl.
      destruct (prop body "data") as [d|] eqn:Hd; [|done]. simpl.
      unfold and. destruct (truthy ok) eqn:Tok.
      * destruct (truthy d) eqn:Td.
        -- destruct (prop body "meta") as [m|] eqn:Hm; [|done]. simpl.
           intros [= <-]. exists statusText, body.
           unfold optprop. rewrite Hok, Hd, Hm. done.
        -- destruct (prop body "error") as [e|]; [|done]. simpl.
           destruct (prop _ "message"); [|done]. simpl.
           destruct (prop _ "retryable"); [|done]. simpl.
           destruct (prop _ "code"); [|done]. simpl.
           unfold createUploadError. by destruct (newError _).
      * rewrite Tok.
        destruct (prop body "error") as [e|]; [|done]. simpl.
        destruct (prop _ "message"); [|done]. simpl.
        destruct (prop _ "retryable"); [|done]. simpl.
        destruct (prop _ "code"); [|done]. simpl.
        unfold createUploadError. by destruct (newError _).
    + by destruct (status =? 200).
  - intros (statusText & body & -> & Hok & Hd & ->). simpl.
    unfold onload200, optprop in *.
    destruct (prop body "success") as [ok|] eqn:Eok; [|done]. simpl in *.
    destruct (prop body "data") as [d|] eqn:Ed; [|done]. simpl in *.
    unfold and. rewrite Hok, Hd.
    assert (is_Some (prop body "meta")) as [m ->]; [|done].
    destruct body; try done; by eexists.
Qed.

(** X2: a response with a status of 500 or more fails the attempt with
    [retryable = false] only when the body's error object says
    [retryable: false] and its message can be made a string; in every
    other case, also when the body cannot be read or its message cannot
    be made a string, the error is retryable. *)
Theorem server_error_retryable fid status statusText response :
  500 ≤ status →
  ∃ e, uploadFile fid (Load status statusText response) = inr e ∧
       retryable e =
       VBool (unprintable response || negb (marksRetryable false response)).
Proof.
  intros Hs.
  pose proof (uploadFile_error_retryable fid status statusText response) as H.
  assert (status ≠ 200) as Hne by lia. specialize (H Hne).
  destruct (uploadFile fid (Load status statusText response)) as [r|e]; [done|].
  exists e. split; [done|]. simpl in H. injection H as ->. f_equal.
  replace (500 <=? status) with true by (symmetry; apply Z.leb_le; lia).
  destruct (unprintable response); [by rewrite orb_true_r|].
  rewrite orb_false_r. simpl.
  destruct (unreadable response) eqn:Hun; [|done].
  by destruct response as [[]|].
Qed.

Lemma server_error_retryable_witness :
  ∃ e, uploadFile "id-a" (Load 503 "Service Unavailable" (Some unavailableBody))
       = inr e ∧
       retryable e =
       VBool (unprintable (Some unavailableBody)
              || negb (marksRetryable false (Some unavailableBody))).
Proof.
  apply (server_error_retryable "id-a" 503 "Service Unavailable"). lia.
Defined.

(** X3: when a response with status 200 fails the attempt, the error is
    retryable only if the body's error object has a truthy [retryable]
    and a message that can be made a string; a body that is not JSON,
    that does not say, or whose message cannot be made a string, is not
    retried. *)
Theorem ok_status_failure_retryable fid statusText response e :
  uploadFile fid (Load 200 statusText response) = inr e →
  truthy (retryable e)
  = truthy (bodyRetryable response) && negb (unprintable response).
Proof.
  cbn [uploadFile Z.eqb Pos.eqb].
  destruct response as [body|]; [|by intros [= <-]].
  cbn [mbind option_bind].
  unfold onload200, unprintable, bodyMessage, bodyRetryable.
  destruct body as [| |b|n|s|l|fs]; try (by intros [= <-]).
  cbn [prop mbind option_bind].
  destruct (truthy (and (field "success" fs) (field "data" fs))); [done|].
  destruct (field "error" fs) as [| |[]|n|s|l|es];
    try (by intros [= <-]).
  - unfold or. simpl. case_bool_decide; simpl; by intros [= <-].
  - unfold or. simpl. case_bool_decide; simpl; by intros [= <-].
  - change (or (VObj es) (VObj [("message", VStr "Unknown server error")]))
      with (VObj es).
    cbn [prop mbind option_bind]. unfold createUploadError.
    destruct (newError (field "message" es)) as [m|] eqn:Hm.
    + assert (ToString (field "message" es) ≠ None) as Hp.
      { intros Hp%newError_None. by rewrite Hp in Hm. }
      rewrite bool_decide_eq_false_2 by done. simpl.
      intros [= <-]. simpl. unfold or.
      destruct (truthy (field "retryable" es)) eqn:Hr; by rewrite ?Hr.
    + apply newError_None in Hm.
      rewrite bool_decide_eq_true_2 by done. simpl.
      intros [= <-]. by rewrite andb_false_r.
Qed.

Lemma ok_status_failure_retryable_witness :
  truthy (retryable (uploadError "Busy" (VBool true) VUndefined))
  = truthy (bodyRetryable (Some busyBody)) && negb (unprintable (Some busyBody)).
Proof.
  apply (ok_status_failure_retryable "id-a" "OK" (Some busyBody)). reflexivity.
Defined.

(** A 200 whose body reports a retryable failure with a message that
    cannot be made a string: [new Error] throws and the attempt fails
    with PARSE_ERROR, which is not retried. *)
Example ok_status_opaque_message :
  uploadFile "id-a"
    (Load 200 "OK"
       (Some (VObj [("success", VBool false);
                    ("error", VObj [("message", VObj [("toString", VNum "1")]);
                                    ("retryable", VBool true)])])))
  = inr parseError.
Proof. reflexivity. Qed.

(** The attempts the loop makes from [a] on are consecutive, and each
    retry waits the table's delay. *)
Lemma retryLoop_shape fid xhr maxRetries fuel a lastError :
  0 ≤ a → a + Z.of_nat fuel = maxRetries + 1 →
  ∃ n, (n ≤ fuel)%nat ∧ (fuel ≠ 0%nat → n ≠ 0%nat) ∧
    attempts (retryLoop fid xhr maxRetries fuel a lastError)
    = (fun k => a + Z.of_nat k) <$> seq 0 n ∧
    delays (retryLoop fid xhr maxRetries fuel a lastError)
    = (fun k => tableDelay (Z.to_nat a + k)) <$> seq 0 (n - 1).
Proof.
  revert a lastError. induction fuel as [|fuel IH]; intros a lastError Ha Hfuel.
  - exists 0%nat. done.
  - cbn [retryLoop].
    destruct (uploadFile fid (xhr a)) as [result|e].
    { exists 1%nat. simpl. rewrite Z.add_0_r. split; [lia|done]. }
    destruct (negb (truthy (retryable e)) || (a =? maxRetries)) eqn:Hstop.
    { exists 1%nat. simpl. rewrite Z.add_0_r. split; [lia|done]. }
    apply orb_false_iff in Hstop as [_ Hne]. apply Z.eqb_neq in Hne.
    assert (a < maxRetries) as Hlt by lia.
    destruct (IH (a + 1) (Some e)) as (n & Hn & Hpos & Hatt & Hdel); [lia..|].
    assert (n ≠ 0%nat) as Hn0 by (apply Hpos; lia).
    exists (S n). cbn [attempts delays settled]. rewrite Hatt, Hdel.
    replace (a <? maxRetries) with true by (symmetry; by apply Z.ltb_lt).
    split; [lia|]. split; [done|]. split.
    + rewrite <- cons_seq, fmap_cons, <- fmap_S_seq, <- list_fmap_compose.
      rewrite Z.add_0_r. f_equal. apply list_fmap_ext. intros i k _. simpl. lia.
    + destruct n as [|n]; [done|].
      replace (S (S n) - 1)%nat with (S n) by lia.
      replace (S n - 1)%nat with n by lia.
      rewrite <- cons_seq, fmap_cons, <- fmap_S_seq, <- list_fmap_compose.
      cbn [app]. f_equal.
      * unfold tableDelay. rewrite Nat.add_0_r. do 2 f_equal.
        change (Z.of_nat (length RETRY_DELAYS) - 1) with 2.
        change (length RETRY_DELAYS - 1)%nat with 2%nat. lia.
      * apply list_fmap_ext. intros i k _. simpl. f_equal. lia.
Qed.

(** X4: uploadWithRetry makes the attempts 0, 1, 2, ... in turn, at most
    maxRetries + 1 of them, and before the k-th retry it waits the k-th
    entry of the delay table (1000, 2000, 4000, then 4000 again). *)
Theorem uploadWithRetry_attempts fid xhr maxRetries :
  attempts (uploadWithRetry fid xhr maxRetries)
  = Z.of_nat <$> seq 0 (length (attempts (uploadWithRetry fid xhr maxRetries))) ∧
  (length (attempts (uploadWithRetry fid xhr maxRetries))
   ≤ Z.to_nat (maxRetries + 1))%nat ∧
  delays (uploadWithRetry fid xhr maxRetries)
  = tableDelay
      <$> seq 0 (length (attempts (uploadWithRetry fid xhr maxRetries)) - 1).
Proof.
  unfold uploadWithRetry.
  destruct (decide (maxRetries + 1 < 0)) as [Hneg|Hpos].
  { replace (Z.to_nat (maxRetries + 1)) with 0%nat by lia. done. }
  destruct (retryLoop_shape fid xhr maxRetries (Z.to_nat (maxRetries + 1)) 0 None)
    as (n & Hn & _ & Hatt & Hdel); [lia..|].
  rewrite Hatt, Hdel, length_fmap, length_seq. done.
Qed.

Lemma retryLoop_last fid xhr maxRetries fuel a lastError :
  (∀ i k,
     attempts (retryLoop fid xhr maxRetries fuel a lastError) !! i = Some k →
     (S i < length (attempts (retryLoop fid xhr maxRetries fuel a lastError)))%nat →
     ∃ e, uploadFile fid (xhr k) = inr e ∧ truthy (retryable e) = true) ∧
  settled (retryLoop fid xhr maxRetries fuel a lastError)
  = match last (attempts (retryLoop fid xhr maxRetries fuel a lastError)) with
    | Some k => outcomeOf (uploadFile fid (xhr k))
    | None => inr lastError
    end.
Proof.
  revert a lastError. induction fuel as [|fuel IH]; intros a lastError.
  - split; [by intros i k ?|done].
  - cbn [retryLoop].
    destruct (uploadFile fid (xhr a)) as [result|e] eqn:Hup.
    { cbn [attempts settled last]. rewrite Hup. split; [|done].
      intros [|i] k Hi Hlen; simpl in Hlen; lia. }
    destruct (negb (truthy (retryable e)) || (a =? maxRetries)) eqn:Hstop.
    { cbn [attempts settled last]. rewrite Hup. split; [|done].
      intros [|i] k Hi Hlen; simpl in Hlen; lia. }
    apply orb_false_iff in Hstop as [Hretry _].
    apply negb_false_iff in Hretry.
    destruct (IH (a + 1) (Some e)) as [Hall Hset]. cbn [attempts settled].
    split.
    + intros [|i] k Hi Hlen; simpl in Hi, Hlen.
      * injection Hi as <-. by exists e.
      * apply (Hall i k Hi). lia.
    + rewrite Hset.
      destruct (attempts (retryLoop fid xhr maxRetries fuel (a + 1) (Some e)))
        as [|k rest] eqn:Hrest.
      * simpl. by rewrite Hup.
      * rewrite last_cons_cons, (last_cons k rest).
        by destruct (last rest).
Qed.

(** X5: every attempt of uploadWithRetry but the last one failed with a
    retryable error, and what uploadWithRetry returns or throws is what
    its last attempt returned or threw; without any attempt it throws
    [null]. *)
Theorem uploadWithRetry_outcome fid xhr maxRetries :
  (∀ i k,
     attempts (uploadWithRetry fid xhr maxRetries) !! i = Some k →
     (S i < length (attempts (uploadWithRetry fid xhr maxRetries)))%nat →
     ∃ e, uploadFile fid (xhr k) = inr e ∧ truthy (retryable e) = true) ∧
  settled (uploadWithRetry fid xhr maxRetries)
  = match last (attempts (uploadWithRetry fid xhr maxRetries)) with
    | Some k => outcomeOf (uploadFile fid (xhr k))
    | None => inr None
    end.
Proof.
  unfold uploadWithRetry.
  destruct (retryLoop_last fid xhr maxRetries (Z.to_nat (maxRetries + 1)) 0 None)
    as [Hall Hset].
  split; [exact Hall|exact Hset].
Qed.

Lemma retryLoop_all_fail fid xhr maxRetries fuel a lastError :
  0 ≤ a → a + Z.of_nat fuel = maxRetries + 1 → fuel ≠ 0%nat →
  (∀ k, a ≤ k ≤ maxRetries →
     ∃ e, uploadFile fid (xhr k) = inr e ∧ truthy (retryable e) = true) →
  length (attempts (retryLoop fid xhr maxRetries fuel a lastError)) = fuel ∧
  settled (retryLoop fid xhr maxRetries fuel a lastError)
  = outcomeOf (uploadFile fid (xhr maxRetries)).
Proof.
  revert a lastError.
  induction fuel as [|fuel IH]; intros a lastError Ha Hfuel Hpos Hfail; [done|].
  cbn [retryLoop].
  destruct (Hfail a) as (e & Hup & Hretry); [lia|]. rewrite Hup, Hretry.
  cbn [negb orb].
  destruct (Z.eqb_spec a maxRetries) as [->|Hne].
  - cbn [attempts settled]. rewrite Hup.
    split; [|done]. simpl. lia.
  - destruct (IH (a + 1) (Some e)) as [Hlen Hset]; [lia..| |].
    { intros k Hk. apply Hfail. lia. }
    cbn [attempts settled]. simpl. by rewrite Hlen, Hset.
Qed.

(** X6: when every attempt fails with a retryable error, uploadWithRetry
    makes maxRetries + 1 attempts and throws the error of the last one;
    the item then ends Failed with that error and retryCount equal to
    maxRetries. *)
Theorem exhausted_retries_fail o now fileId xhr s :
  0 ≤ maxRetries o →
  fileId ∈ inFlight s →
  (∀ k, 0 ≤ k ≤ maxRetries o →
     ∃ e, uploadFile fileId (xhr k) = inr e ∧ truthy (retryable e) = true) →
  length (attempts (uploadWithRetry fileId xhr (maxRetries o)))
  = Z.to_nat (maxRetries o + 1) ∧
  ∃ e, uploadFile fileId (xhr (maxRetries o)) = inr e ∧
    ∀ i f, files s !! i = Some f → id f = fileId →
      ∃ f', files (handle o now (Settle fileId xhr) s) !! i = Some f' ∧
            status f' = Failed ∧ error f' = Some (message e) ∧
            retryCount f' = maxRetries o.
Proof.
  intros Hm Hin Hfail.
  destruct (retryLoop_all_fail fileId xhr (maxRetries o)
              (Z.to_nat (maxRetries o + 1)) 0 None) as [Hlen Hset];
    [lia..|done|].
  fold (uploadWithRetry fileId xhr (maxRetries o)) in Hlen, Hset.
  split; [done|].
  destruct (Hfail (maxRetries o)) as (e & Hup & _); [lia|].
  exists e. split; [done|]. intros i f Hf Hid.
  rewrite files_settle by done. rewrite Hset, Hup. cbn [outcomeOf].
  rewrite lookup_mapId, Hf. simpl.
  rewrite bool_decide_eq_true_2 by done. by eexists.
Qed.

Lemma exhausted_retries_fail_witness :
  length (attempts (uploadWithRetry "id-a" alwaysOffline
                      (maxRetries defaultOptions)))
  = Z.to_nat (maxRetries defaultOptions + 1) ∧
  ∃ e, uploadFile "id-a" (alwaysOffline (maxRetries defaultOptions)) = inr e ∧
    ∀ i f, files (run defaultOptions [(0, AddFiles [("id-a", fileA)])]) !! i
           = Some f → id f = "id-a" →
      ∃ f', files (handle defaultOptions 9000 (Settle "id-a" alwaysOffline)
                     (run defaultOptions [(0, AddFiles [("id-a", fileA)])])) !! i
            = Some f' ∧
            status f' = Failed ∧ error f' = Some (message e) ∧
            retryCount f' = maxRetries defaultOptions.
Proof.
  apply (exhausted_retries_fail defaultOptions 9000 "id-a" alwaysOffline
           (run defaultOptions [(0, AddFiles [("id-a", fileA)])])).
  - vm_compute. discriminate.
  - apply (bool_decide_unpack _). vm_compute. exact I.
  - intros k _. eexists. split; reflexivity.
Defined.

(** X7: with a negative maxRetries uploadWithRetry makes no attempt and
    throws [null]; the item ends Failed with the error "Upload failed"
    without any request having been sent. *)
Theorem negative_maxRetries_fails_unsent o now fileId xhr s :
  maxRetries o < 0 →
  fileId ∈ inFlight s →
  attempts (uploadWithRetry fileId xhr (maxRetries o)) = [] ∧
  ∀ i f, files s !! i = Some f → id f = fileId →
    ∃ f', files (handle o now (Settle fileId xhr) s) !! i = Some f' ∧
          status f' = Failed ∧ error f' = Some "Upload failed" ∧
          retryCount f' = maxRetries o.
Proof.
  intros Hm Hin.
  assert (uploadWithRetry fileId xhr (maxRetries o)
          = {| settled := inr None; attempts := []; delays := [] |}) as Hrun.
  { unfold uploadWithRetry.
    by replace (Z.to_nat (maxRetries o + 1)) with 0%nat by lia. }
  rewrite files_settle by done. rewrite Hrun. split; [done|].
  intros i f Hf Hid. cbn [settled]. rewrite lookup_mapId, Hf. simpl.
  rewrite bool_decide_eq_true_2 by done. by eexists.
Qed.

Lemma negative_maxRetries_fails_unsent_witness :
  attempts (uploadWithRetry "id-a" alwaysOk (maxRetries noRetries)) = [] ∧
  ∀ i f, files (run noRetries [(0, AddFiles [("id-a", fileA)])]) !! i = Some f →
         id f = "id-a" →
    ∃ f', files (handle noRetries 50 (Settle "id-a" alwaysOk)
                   (run noRetries [(0, AddFiles [("id-a", fileA)])])) !! i
          = Some f' ∧
          status f' = Failed ∧ error f' = Some "Upload failed" ∧
          retryCount f' = maxRetries noRetries.
Proof.
  apply (negative_maxRetries_fails_unsent noRetries 50 "id-a" alwaysOk
           (run noRetries [(0, AddFiles [("id-a", fileA)])])).
  - vm_compute. reflexivity.
  - apply (bool_decide_unpack _). vm_compute. exact I.
Defined.

(** X8: deleteFile resolves exactly when the request got an ok response;
    so removeFile, for an item found Completed with a key, removes the
    items of that id when the response is ok, and otherwise keeps every
    item and records the delete-failure error on them. *)
Theorem removeFile_follows_response closure fetch fileId s f :
  findId fileId closure = Some f →
  status f = Completed →
  truthy (s3Key f) = true →
  (deleteFile (fetch (s3Key f)) = None ↔ responseOk (fetch (s3Key f)) = true) ∧
  (∀ e, deleteFile (fetch (s3Key f)) = Some e →
        retryable e = VBool false ∧ code e = VStr "DELETE_ERROR") ∧
  files (removeFile closure (deleteResolves fetch) fileId s)
  = if responseOk (fetch (s3Key f))
    then filter (fun g => id g ≠ fileId) (files s)
    else mapId fileId markDeleteFailed (files s).
Proof.
  intros Hfind Hst Hkey. unfold removeFile, deleteResolves.
  rewrite Hfind. simpl. rewrite Hkey, Hst. simpl.
  destruct (fetch (s3Key f)) as [msg|[] status json]; simpl.
  - split; [done|]. split; [|done]. by intros e [= <-].
  - split; [done|]. split; [|done]. by intros e ?.
  - split; [done|]. split; [|done]. by intros e [= <-].
Qed.

Lemma removeFile_follows_response_witness :
  (deleteFile (notFound (s3Key completedA)) = None
   ↔ responseOk (notFound (s3Key completedA)) = true) ∧
  (∀ e, deleteFile (notFound (s3Key completedA)) = Some e →
        retryable e = VBool false ∧ code e = VStr "DELETE_ERROR") ∧
  files (removeFile [completedA] (deleteResolves notFound) "id-a"
           (run defaultOptions uploadedTrace))
  = if responseOk (notFound (s3Key completedA))
    then filter (fun g => id g ≠ "id-a") (files (run defaultOptions uploadedTrace))
    else mapId "id-a" markDeleteFailed (files (run defaultOptions uploadedTrace)).
Proof.
  apply (removeFile_follows_response [completedA] notFound "id-a"
           (run defaultOptions uploadedTrace) completedA); reflexivity.
Defined.

(** *** The registry of running requests *)

(** X9: cancelUpload is safe to repeat and to call late: after it the
    file is not uploading, a second call changes nothing, and a call
    after the request's own handler has run, or on a service that never
    sent anything, changes nothing. *)
Theorem cancelUpload_idempotent fileId sv :
  isUploading fileId (cancelUpload fileId sv) = false ∧
  cancelUpload fileId (cancelUpload fileId sv) = cancelUpload fileId sv ∧
  cancelUpload fileId (requestDone fileId sv) = requestDone fileId sv ∧
  cancelUpload fileId newService = newService.
Proof.
  assert (∀ sv', activeUploads sv' !! fileId = None →
                 cancelUpload fileId sv' = sv') as Habsent.
  { intros sv' Hnone. unfold cancelUpload. by rewrite Hnone. }
  assert (activeUploads (cancelUpload fileId sv) !! fileId = None) as Hgone.
  { unfold cancelUpload.
    destruct (activeUploads sv !! fileId) eqn:Hl; [|done].
    simpl. apply lookup_delete_eq. }
  split.
  - unfold isUploading. rewrite Hgone. apply bool_decide_eq_false_2.
    by intros [? ?].
  - split; [by apply Habsent|]. split.
    + apply Habsent. simpl. apply lookup_delete_eq.
    + by apply Habsent.
Qed.

(** X10: cancelAllUploads aborts every request that was registered and
    empties the registry; requests aborted before stay aborted, and a
    second call changes nothing. *)
Theorem cancelAllUploads_clears sv fileId xhr :
  activeUploads sv !! fileId = Some xhr →
  xhr ∈ aborted (cancelAllUploads sv) ∧
  aborted sv ⊆ aborted (cancelAllUploads sv) ∧
  getActiveUploadCount (cancelAllUploads sv) = 0%nat ∧
  (∀ j, isUploading j (cancelAllUploads sv) = false) ∧
  cancelAllUploads (cancelAllUploads sv) = cancelAllUploads sv.
Proof.
  intros Hx. split.
  { simpl. apply elem_of_union_r, elem_of_map_img. by exists fileId. }
  split; [simpl; set_solver|].
  split; [apply map_size_empty|].
  split.
  - intros j. unfold isUploading. simpl. rewrite lookup_empty.
    apply bool_decide_eq_false_2. by intros [? ?].
  - unfold cancelAllUploads. simpl. f_equal.
    rewrite map_img_empty_L. set_solver.
Qed.

Lemma cancelAllUploads_clears_witness :
  0%nat ∈ aborted (cancelAllUploads twoUploads) ∧
  aborted twoUploads ⊆ aborted (cancelAllUploads twoUploads) ∧
  getActiveUploadCount (cancelAllUploads twoUploads) = 0%nat ∧
  (∀ j, isUploading j (cancelAllUploads twoUploads) = false) ∧
  cancelAllUploads (cancelAllUploads twoUploads) = cancelAllUploads twoUploads.
Proof.
  apply (cancelAllUploads_clears twoUploads "id-a" 0%nat). reflexivity.
Defined.

(** X11: cancelUpload of a file that is uploading aborts the request
    registered for it and no other, takes one entry out of the registry,
    and leaves the entries of the other files as they were. *)
Theorem cancelUpload_aborts_one fileId sv xhr :
  activeUploads sv !! fileId = Some xhr →
  aborted (cancelUpload fileId sv) = aborted sv ∪ {[xhr]} ∧
  S (getActiveUploadCount (cancelUpload fileId sv)) = getActiveUploadCount sv ∧
  ∀ j, j ≠ fileId →
       activeUploads (cancelUpload fileId sv) !! j = activeUploads sv !! j.
Proof.
  intros Hx. unfold cancelUpload, getActiveUploadCount. rewrite Hx. simpl.
  split; [done|]. split.
  - rewrite map_size_delete, Hx.
    assert (size (activeUploads sv) ≠ 0%nat) as Hne.
    { intros Hz%map_size_empty_inv. by rewrite Hz, lookup_empty in Hx. }
    simpl. lia.
  - intros j Hj. by apply lookup_delete_ne.
Qed.

Lemma cancelUpload_aborts_one_witness :
  aborted (cancelUpload "id-a" twoUploads) = aborted twoUploads ∪ {[0%nat]} ∧
  S (getActiveUploadCount (cancelUpload "id-a" twoUploads))
  = getActiveUploadCount twoUploads ∧
  ∀ j, j ≠ "id-a" →
       activeUploads (cancelUpload "id-a" twoUploads) !! j
       = activeUploads twoUploads !! j.
Proof. apply (cancelUpload_aborts_one "id-a" twoUploads 0%nat). reflexivity. Defined.

(** X12: the registry holds one request per file id. A second request
    for an id that is still uploading takes the place of the first: the
    count does not grow, cancelUpload then aborts the second request and
    not the first, and the handler of either request unregisters the
    id. *)
Theorem second_request_replaces_first fileId sv :
  created sv ∉ aborted sv →
  getActiveUploadCount (sendRequest fileId (sendRequest fileId sv))
  = getActiveUploadCount (sendRequest fileId sv) ∧
  aborted (cancelUpload fileId (sendRequest fileId (sendRequest fileId sv)))
  = aborted sv ∪ {[S (created sv)]} ∧
  (created sv ∉ aborted (cancelUpload fileId
                           (sendRequest fileId (sendRequest fileId sv)))) ∧
  isUploading fileId (requestDone fileId
                        (sendRequest fileId (sendRequest fileId sv))) = false.
Proof.
  intros Hfresh.
  assert (aborted (cancelUpload fileId (sendRequest fileId (sendRequest fileId sv)))
          = aborted sv ∪ {[S (created sv)]}) as Hab.
  { unfold cancelUpload. cbn [sendRequest activeUploads created aborted].
    rewrite lookup_insert_eq. done. }
  split.
  { unfold getActiveUploadCount. cbn [sendRequest activeUploads created].
    rewrite (map_size_insert fileId (S (created sv))), lookup_insert_eq. done. }
  split; [done|]. split.
  - rewrite Hab. intros [?|Heq%elem_of_singleton]%elem_of_union; [done|lia].
  - unfold isUploading. cbn [requestDone activeUploads].
    rewrite lookup_delete_eq.
    apply bool_decide_eq_false_2. by intros [? ?].
Qed.

Lemma second_request_replaces_first_witness :
  getActiveUploadCount (sendRequest "id-a" (sendRequest "id-a" newService))
  = getActiveUploadCount (sendRequest "id-a" newService) ∧
  aborted (cancelUpload "id-a" (sendRequest "id-a" (sendRequest "id-a" newService)))
  = aborted newService ∪ {[S (created newService)]} ∧
  (created newService
   ∉ aborted (cancelUpload "id-a"
                (sendRequest "id-a" (sendRequest "id-a" newService)))) ∧
  isUploading "id-a" (requestDone "id-a"
                        (sendRequest "id-a" (sendRequest "id-a" newService)))
  = false.
Proof.
  apply (second_request_replaces_first "id-a" newService).
  apply not_elem_of_empty.
Defined.

End UploadServiceMore.

(** ** Further properties of the queue *)

Module QueueMore.

Import UploadService UseUploadQueue QueueSpec UploadServiceState View MoreSpec.
Import QueueProperties RunProperties.

Lemma Forall_kept {A} (P Q : A → Prop) `{!∀ x, Decision (Q x)} (l : list A) :
  Forall P l → Forall P (filter Q l).
Proof.
  rewrite !Forall_forall. intros Hall x [_ Hx]%list_elem_of_filter. by apply Hall.
Qed.

Lemma run_snoc o trace te : run o (trace ++ [te]) = step o (run o trace) te.
Proof. unfold run. apply foldl_snoc. Qed.

(** *** retryCount *)

Lemma retryCount_processLoop o now s (P : Z -> Prop) :
  Forall (fun f => P (retryCount f)) (files s) →
  Forall (fun f => P (retryCount f)) (files (processLoop o now s)).
Proof.
  intros Hall. destruct (state_processLoop o now s) as [-> _].
  apply Forall_fmap. eapply Forall_impl; [exact Hall|].
  intros f Hf. simpl. by case_bool_decide.
Qed.

(** X14: along every run the retryCount of an item is either 0 or
    maxRetries: it is 0 from addFiles on and is set to maxRetries by a
    final failure; no event counts the attempts on the item. *)
Theorem retryCount_zero_or_max o trace f :
  f ∈ files (run o trace) →
  retryCount f = 0 ∨ retryCount f = maxRetries o.
Proof.
  revert f. apply Forall_forall.
  induction trace as [|[now e] trace IH] using rev_ind; [by constructor|].
  rewrite run_snoc. unfold step. simpl.
  set (P := fun n : Z => n = 0 ∨ n = maxRetries o).
  assert (Forall (fun f => P (retryCount f)) (files (handle o now e (run o trace))))
    as Hhandle.
  { assert (∀ fileId g, (∀ f, P (retryCount f) → P (retryCount (g f))) →
              Forall (fun f => P (retryCount f))
                     (mapId fileId g (files (run o trace)))) as Hmap.
    { intros fileId g Hg. apply Forall_fmap. eapply Forall_impl; [exact IH|].
      intros f Hf. simpl. case_bool_decide; [by apply Hg|done]. }
    assert (∀ closure deleteFile fileId,
              Forall (fun f => P (retryCount f))
                (files (removeFile closure deleteFile fileId (run o trace))))
      as Hremove.
    { intros closure deleteFile fileId.
      unfold removeFile. destruct (_ && _); simpl; [by apply Hmap|].
      by apply Forall_kept. }
    assert (∀ closure deleteFile,
              Forall (fun f => P (retryCount f))
                (files (clearCompleted closure deleteFile (run o trace))))
      as Hclear.
    { intros closure deleteFile.
      unfold clearCompleted. simpl. rewrite markFailedDeletes_fmap.
      apply Forall_kept, Forall_fmap. eapply Forall_impl; [exact IH|].
      intros f Hf. simpl. by case_bool_decide. }
    destruct e as [newFiles|fileId|fileId deleteFile|deleteFile| | |
                   |fileId p|fileId xhr
                   |closure fileId deleteFile|closure deleteFile];
      cbn [handle].
    - assert (Forall (fun f => P (retryCount f))
                (files (run o trace) ++ (newItem <$> newFiles))) as Hnew.
      { apply Forall_app. split; [done|].
        apply Forall_fmap, Forall_forall. intros x _. by left. }
      unfold addFiles. by destruct (_ && _).
    - unfold retryFile. destruct (negb _); simpl; by apply Hmap.
    - apply Hremove.
    - apply Hclear.
    - done.
    - done.
    - destruct (processingRef _); [|done].
      by apply (retryCount_processLoop o now _ P).
    - case_bool_decide; [|done]. by apply Hmap.
    - case_bool_decide; [|done]. unfold uploadFileSettle.
      destruct (settled _); simpl; apply Hmap; [done|]. intros f _. by right.
    - apply Hremove.
    - apply Hclear. }
  destruct (effects_cases o now (handle o now e (run o trace))) as [-> | ->];
    [done|].
  by apply (retryCount_processLoop o now _ P).
Qed.

Lemma retryCount_zero_or_max_witness :
  retryCount failedA = 0 ∨ retryCount failedA = maxRetries defaultOptions.
Proof.
  apply (retryCount_zero_or_max defaultOptions failedTrace).
  change (failedA ∈ [failedA]). left.
Defined.

(** *** Removal *)

Lemma enqueuedIds_cons te trace :
  enqueuedIds (te :: trace) = enqueuedIds [te] ++ enqueuedIds trace.
Proof. unfold enqueuedIds. simpl. by rewrite app_nil_r. Qed.

Lemma ids_step o s te :
  ids (files (step o s te)) `sublist_of` ids (files s) ++ enqueuedIds [te].
Proof.
  destruct te as [now e]. unfold step. simpl.
  rewrite ids_effects. apply ids_handle.
Qed.

(** The ids in the collection after a trace were there before it or
    were enqueued by it, in that order. *)
Lemma ids_runFrom o trace s :
  ids (files (runFrom o s trace)) `sublist_of`
  ids (files s) ++ enqueuedIds trace.
Proof.
  revert s. induction trace as [|te trace IH]; intros s.
  - unfold enqueuedIds. simpl. by rewrite app_nil_r.
  - change (runFrom o s (te :: trace)) with (runFrom o (step o s te) trace).
    etrans; [apply IH|].
    rewrite enqueuedIds_cons, app_assoc.
    apply sublist_app; [apply ids_step|done].
Qed.

(** X15: when removeFile is not held back by a failed deletion, no item
    with the id is left and the id is out of the set [uploading]; and
    whatever happens next (a late settlement or progress report of its
    upload, a timer run) the id does not come back unless it is
    enqueued again. *)
Theorem removed_stays_removed o s now deleteFile fileId trace :
  heldBack s deleteFile fileId = false →
  fileId ∉ enqueuedIds trace →
  (fileId ∉ uploading (handle o now (RemoveFile fileId deleteFile) s)) ∧
  (fileId ∉ ids (files (runFrom o (step o s (now, RemoveFile fileId deleteFile))
                          trace))).
Proof.
  intros Hheld Hfresh.
  assert (handle o now (RemoveFile fileId deleteFile) s
          = setUploading (fun prev => prev ∖ {[fileId]})
              (setFiles (fun prev => filter (fun f => id f ≠ fileId) prev) s))
    as Hrm.
  { simpl. unfold removeFile. unfold heldBack in Hheld. by rewrite Hheld. }
  split.
  { rewrite Hrm. simpl. set_solver. }
  intros Hin.
  pose proof (elem_of_sublist _ _ _ Hin
                (ids_runFrom o trace
                   (step o s (now, RemoveFile fileId deleteFile)))) as Hin'.
  apply elem_of_app in Hin' as [Hin'|Hin']; [|done].
  unfold step in Hin'. rewrite ids_effects in Hin'.
  change ((now, RemoveFile fileId deleteFile).1) with now in Hin'.
  change ((now, RemoveFile fileId deleteFile).2)
    with (RemoveFile fileId deleteFile) in Hin'.
  rewrite Hrm in Hin'. simpl in Hin'.
  apply list_elem_of_fmap in Hin' as (f & Hid & Hf).
  apply list_elem_of_filter in Hf as [Hne _]. done.
Qed.

Lemma removed_stays_removed_witness :
  ("id-a" ∉ uploading (handle defaultOptions 10 (RemoveFile "id-a" deleteFails)
                         (run defaultOptions enqueuedTrace))) ∧
  ("id-a" ∉ ids (files (runFrom defaultOptions
                          (step defaultOptions (run defaultOptions enqueuedTrace)
                             (10, RemoveFile "id-a" deleteFails))
                          [(50, Settle "id-a" alwaysOk); (100, Timer)]))).
Proof.
  apply (removed_stays_removed defaultOptions (run defaultOptions enqueuedTrace)
           10 deleteFails "id-a" [(50, Settle "id-a" alwaysOk); (100, Timer)]).
  - reflexivity.
  - apply not_elem_of_nil.
Defined.

(** *** clearCompleted *)

Lemma countStatus_cleared failedIds st (l : list FileUploadItem) :
  countStatus st (omap (clearedItem failedIds) l)
  = match st with
    | Pending | Uploading => countStatus st l
    | Completed =>
        length (filter (fun f => status f = Completed ∧ id f ∈ failedIds) l)
    | Failed => 0%nat
    end.
Proof.
  unfold countStatus. induction l as [|f l IH]; [by destruct st|].
  cbn [omap list_omap]. rewrite !filter_cons. unfold clearedItem at 1.
  cbv zeta.
  set (f' := if bool_decide (id f ∈ failedIds) then markDeleteFailed f else f).
  assert (status f' = status f) as Hst' by (unfold f'; by case_bool_decide).
  destruct (status f) eqn:Hst.
  - rewrite filter_cons, Hst'.
    destruct st; simpl; rewrite ?IH; try done;
      repeat case_decide; try done; naive_solver.
  - rewrite filter_cons, Hst'.
    destruct st; simpl; rewrite ?IH; try done;
      repeat case_decide; try done; naive_solver.
  - case_bool_decide as Hin; rewrite ?filter_cons, ?Hst';
      destruct st; simpl; rewrite ?IH; try done;
      repeat case_decide; try done; naive_solver.
  - destruct st; rewrite ?IH; repeat case_decide; try done; naive_solver.
Qed.

(** X16: whatever collection clearCompleted read when it was called, and
    whatever happened while it waited for the storage, its writes leave
    the numbers of Pending and of Uploading items of the collection they
    find as they are, leave no Failed item, and leave of the Completed
    items those whose id had a failed deletion, each with the
    delete-failure error; the set [uploading] is not changed. *)
Theorem clearCompleted_stats closure deleteFile s :
  pending (stats (files (clearCompleted closure deleteFile s)))
  = pending (stats (files s)) ∧
  uploadingCount (stats (files (clearCompleted closure deleteFile s)))
  = uploadingCount (stats (files s)) ∧
  failed (stats (files (clearCompleted closure deleteFile s))) = 0%nat ∧
  completed (stats (files (clearCompleted closure deleteFile s)))
  = length (filter (fun f => status f = Completed
                             ∧ id f ∈ failedDeleteIds closure deleteFile)
                   (files s)) ∧
  Forall (fun f => status f = Completed → error f = Some deleteFailure)
         (files (clearCompleted closure deleteFile s)) ∧
  uploading (clearCompleted closure deleteFile s) = uploading s.
Proof.
  rewrite files_clearCompleted.
  unfold stats. cbn [pending uploadingCount completed failed].
  rewrite !countStatus_cleared.
  do 4 (split; [done|]). split; [|done].
  apply Forall_forall. intros f' Hf' Hst.
  apply list_elem_of_omap in Hf' as (f & Hf & Hc).
  unfold clearedItem in Hc. cbv zeta in Hc.
  destruct (status f) eqn:Hsf; try done.
  - injection Hc as <-. revert Hst. case_bool_decide; simpl; congruence.
  - injection Hc as <-. revert Hst. case_bool_decide; simpl; congruence.
  - case_bool_decide; [|done]. by injection Hc as <-.
Qed.

(** *** The scheduler *)

Lemma pendingFiles_nil_iff (fs : list FileUploadItem) :
  pendingFiles fs = [] ↔ ∀ f, f ∈ fs → status f ≠ Pending.
Proof.
  unfold pendingFiles. split.
  - intros Hnil f Hf Hst. by apply (filter_nil_not_elem_of _ _ f Hnil).
  - intros Hall. induction fs as [|f fs IH]; [done|].
    rewrite filter_cons, decide_False by (apply Hall; left).
    apply IH. intros g Hg. apply Hall. by right.
Qed.

Lemma filesToUpload_nil o (fs : list FileUploadItem) u :
  pendingFiles fs = [] → filesToUpload o fs u = [].
Proof.
  intros Hnil. unfold filesToUpload. rewrite Hnil. simpl.
  by rewrite andb_false_r.
Qed.

(** Without an admission processLoop leaves the items and the set. *)
Lemma processLoop_idle o now s :
  filesToUpload o (files s) (uploading s) = [] →
  files (processLoop o now s) = files s ∧
  uploading (processLoop o now s) = uploading s.
Proof.
  intros Hnil. destruct (state_processLoop o now s) as [-> ->].
  rewrite Hnil. split.
  - rewrite <- (list_fmap_id (files s)) at 2.
    apply list_fmap_ext. intros i f _.
    rewrite bool_decide_eq_false_2; [done|]. apply not_elem_of_nil.
  - change (list_to_set (ids [])) with (∅ : gset string).
    by rewrite (right_id_L ∅ (∪)).
Qed.

(** X18: processLoop leaves no slot idle. From a state with distinct ids
    in which every id of the set [uploading] belongs to an Uploading
    item and the set is within the ceiling, one run of processLoop ends
    with no Pending item left or with exactly maxConcurrent ids in the
    set. *)
Theorem processLoop_fills_slots o now s :
  NoDup (ids (files s)) →
  (∀ x, x ∈ uploading s →
        ∃ f, f ∈ files s ∧ id f = x ∧ status f = Uploading) →
  Z.of_nat (size (uploading s)) ≤ maxConcurrent o →
  pendingFiles (files (processLoop o now s)) = [] ∨
  Z.of_nat (size (uploading (processLoop o now s))) = maxConcurrent o.
Proof.
  intros Hnd Hset Hsize.
  destruct (filesToUpload o (files s) (uploading s)) as [|g0 L0] eqn:HL.
  { destruct (processLoop_idle o now s HL) as [-> ->].
    unfold filesToUpload, availableSlots in HL.
    destruct (0 <? maxConcurrent o - Z.of_nat (size (uploading s))) eqn:Hslots.
    - left. simpl in HL.
      destruct (pendingFiles (files s)) as [|p ps] eqn:Hp; [done|].
      simpl in HL.
      destruct (Z.to_nat (maxConcurrent o - Z.of_nat (size (uploading s))))
        eqn:Hn; [|done].
      apply Z.ltb_lt in Hslots. lia.
    - right. apply Z.ltb_ge in Hslots. lia. }
  destruct (state_processLoop o now s) as [Hf Hu]. rewrite HL in Hf, Hu.
  rewrite <- HL in Hf, Hu.
  assert (filesToUpload o (files s) (uploading s)
          = take (Z.to_nat (availableSlots o (uploading s)))
                 (pendingFiles (files s)) ∧
          0 < availableSlots o (uploading s)) as [Htake Hslots].
  { unfold filesToUpload in HL |- *.
    destruct (0 <? availableSlots o (uploading s)) eqn:Hs; [|done].
    destruct (0 <? Z.of_nat (length (pendingFiles (files s)))); [|done].
    split; [done|]. by apply Z.ltb_lt. }
  set (n := Z.to_nat (availableSlots o (uploading s))) in *.
  destruct (decide (length (pendingFiles (files s)) ≤ n)%nat) as [Hall|Hmore].
  - left. rewrite take_ge in Htake by done.
    apply pendingFiles_nil_iff. rewrite Hf. intros f' Hf' Hst.
    apply list_elem_of_fmap in Hf' as (f & -> & Hin).
    case_bool_decide as Hid; [done|].
    apply Hid. rewrite Htake. apply list_elem_of_fmap_2.
    by apply list_elem_of_filter.
  - right. rewrite Hu.
    assert (NoDup (ids (filesToUpload o (files s) (uploading s)))) as HndL.
    { eapply sublist_NoDup; [exact Hnd|]. rewrite Htake.
      unfold ids, pendingFiles. apply fmap_sublist.
      etrans; [apply sublist_take|apply sublist_filter]. }
    rewrite size_union.
    + rewrite size_list_to_set by done.
      unfold ids. rewrite length_fmap, Htake, length_take_le by lia.
      unfold n, availableSlots in *. lia.
    + intros x Hx HxL. apply elem_of_list_to_set in HxL.
      apply list_elem_of_fmap in HxL as (g & -> & Hg).
      apply filesToUpload_pending in Hg as [Hg Hpend].
      destruct (Hset _ Hx) as (f & Hfin & Hid & Hup).
      assert (f = g) as Heq by (apply (ids_inj (files s)); done).
      rewrite Heq in Hup. congruence.
Qed.

Lemma processLoop_fills_slots_witness :
  pendingFiles (files (processLoop manualOptions 10
                         (run manualOptions enqueuedTrace))) = [] ∨
  Z.of_nat (size (uploading (processLoop manualOptions 10
                               (run manualOptions enqueuedTrace))))
  = maxConcurrent manualOptions.
Proof.
  apply (processLoop_fills_slots manualOptions 10
           (run manualOptions enqueuedTrace)).
  - apply (bool_decide_unpack _). vm_compute. exact I.
  - intros x Hx. exfalso. revert Hx. apply not_elem_of_empty.
  - vm_compute. discriminate.
Defined.

(** *** Runs driven by the components *)

(** Induction along a trace whose events are all offered. *)
Lemma offered_ind o (P : QueueState → Prop) (Q : Event → Prop) :
  (∀ s now e, NoDup (ids (files s)) → P s → offered s e = true → Q e →
              P (step o s (now, e))) →
  ∀ trace s,
    NoDup (ids (files s) ++ enqueuedIds trace) →
    offeredFrom o s trace = true →
    Forall (fun te => Q te.2) trace →
    P s → P (runFrom o s trace).
Proof.
  intros Hstep trace.
  induction trace as [|[now e] trace IH]; intros s Hnd Hoff HQ HP; [done|].
  change (runFrom o s ((now, e) :: trace))
    with (runFrom o (step o s (now, e)) trace).
  cbn [offeredFrom] in Hoff. apply andb_true_iff in Hoff as [Hoff1 Hoff2].
  apply Forall_cons in HQ as [HQ1 HQ2].
  rewrite enqueuedIds_cons, app_assoc in Hnd.
  apply IH; [|done|done|].
  - eapply sublist_NoDup; [exact Hnd|].
    apply sublist_app; [apply ids_step|done].
  - apply Hstep; [|done..].
    apply NoDup_app in Hnd as [Hnd _]. by apply NoDup_app in Hnd as [Hnd _].
Qed.

Lemma setBacked_processLoop o now s :
  setBacked s → setBacked (processLoop o now s).
Proof.
  intros Hs x. destruct (state_processLoop o now s) as [-> ->].
  intros [Hx|Hx]%elem_of_union.
  - destruct (Hs x Hx) as (f & Hf & Hid & Hst).
    exists (if bool_decide (id f ∈ ids (filesToUpload o (files s) (uploading s)))
            then markUploading now f else f).
    split; [apply list_elem_of_fmap; by exists f|]. by case_bool_decide.
  - apply elem_of_list_to_set in Hx as Hx'.
    apply list_elem_of_fmap in Hx' as (g & -> & Hg).
    exists (markUploading now g). split; [|done].
    apply list_elem_of_fmap. exists g.
    rewrite bool_decide_eq_true_2 by (by apply list_elem_of_fmap_2).
    split; [done|]. by apply filesToUpload_pending in Hg as [? _].
Qed.

Lemma setBacked_effects o now s : setBacked s → setBacked (effects o now s).
Proof.
  intros Hs. destruct (effects_cases o now s) as [-> | ->]; [done|].
  by apply setBacked_processLoop.
Qed.

Lemma setBacked_removeFile closure deleteFile fileId s :
  setBacked s → setBacked (removeFile closure deleteFile fileId s).
Proof.
  intros Hs. unfold removeFile. destruct (_ && _); simpl.
  - intros x Hx. destruct (Hs x Hx) as (f & Hf & Hid & Hst).
    exists (if bool_decide (id f = fileId) then markDeleteFailed f else f).
    split; [apply list_elem_of_fmap; by exists f|]. by case_bool_decide.
  - intros x [Hx Hne]%elem_of_difference.
    destruct (Hs x Hx) as (f & Hf & Hid & Hst).
    exists f. split; [|done]. apply list_elem_of_filter. split; [|done].
    rewrite Hid. intros ->. apply Hne. by apply elem_of_singleton.
Qed.

Lemma setBacked_handle o now e s :
  NoDup (ids (files s)) → offered s e = true →
  setBacked s → setBacked (handle o now e s).
Proof.
  intros Hnd Hoff Hs.
  destruct e as [newFiles|fileId|fileId deleteFile|deleteFile| | |
                 |fileId p|fileId xhr
                 |closure fileId deleteFile|closure deleteFile];
    simpl; try done.
  - assert (setBacked (setFiles
              (fun prev => prev ++ (newItem <$> newFiles)) s)) as Hnew.
    { intros x Hx. destruct (Hs x Hx) as (f & Hf & Hid & Hst).
      exists f. split; [|done]. simpl. apply elem_of_app. by left. }
    unfold addFiles. by destruct (_ && _).
  - simpl in Hoff. apply bool_decide_eq_true in Hoff.
    apply Exists_exists in Hoff as (f0 & Hf0 & Hid0 & Hretry).
    apply bool_decide_eq_true in Hretry.
    assert (setBacked (setFiles (mapId fileId markPending) s)) as Hnew.
    { intros x Hx. destruct (Hs x Hx) as (f & Hf & Hid & Hst).
      exists f. split; [|done]. simpl. apply list_elem_of_fmap. exists f.
      split; [|done]. rewrite bool_decide_eq_false_2; [done|].
      intros Hfid. assert (f = f0) as -> by (eapply ids_inj; [done..|congruence]).
      congruence. }
    unfold retryFile. by destruct (negb _).
  - by apply setBacked_removeFile.
  - destruct (processingRef s); [|done]. by apply setBacked_processLoop.
  - case_bool_decide; [|done]. intros x Hx.
    destruct (Hs x Hx) as (f & Hf & Hid & Hst).
    exists (if bool_decide (id f = fileId) then markProgress p f else f).
    split; [apply list_elem_of_fmap; by exists f|]. by case_bool_decide.
  - case_bool_decide; [|done]. unfold uploadFileSettle.
    assert (∀ g, setBacked (setInFlight (removeFirst fileId)
                   (setFiles (mapId fileId g)
                      (setUploading (fun prev => prev ∖ {[fileId]}) s)))) as Hnew.
    { intros g x [Hx Hne]%elem_of_difference.
      destruct (Hs x Hx) as (f & Hf & Hid & Hst).
      exists f. split; [|done]. simpl. apply list_elem_of_fmap. exists f.
      split; [|done]. rewrite bool_decide_eq_false_2; [done|].
      rewrite Hid. intros ->. apply Hne. by apply elem_of_singleton. }
    destruct (settled _); apply Hnew.
  - by apply setBacked_removeFile.
Qed.

(** X20: in a run driven by the components, with distinct generated ids
    and a ceiling that is not negative, and as long as stopProcessing is
    not called, the set [uploading] holds exactly the ids of the
    Uploading items; so its size is the number of Uploading items and
    the slots processLoop computes are maxConcurrent minus that
    number. *)
Theorem uploading_set_matches o trace :
  0 ≤ maxConcurrent o →
  NoDup (enqueuedIds trace) →
  viewDriven o trace = true →
  Forall (fun te => isStop te.2 = false) trace →
  uploadingMatches (run o trace) ∧
  size (uploading (run o trace)) = uploadingCount (stats (files (run o trace))) ∧
  availableSlots o (uploading (run o trace))
  = maxConcurrent o - Z.of_nat (uploadingCount (stats (files (run o trace)))).
Proof.
  intros Hmax Hnd Hview Hstop.
  assert (withinCeiling o (run o trace) ∧ setBacked (run o trace))
    as [[Hsub _] Hback].
  { apply (offered_ind o (fun s => withinCeiling o s ∧ setBacked s)
             (fun e => isStop e = false)); [|done..|].
    - intros s now e Hnds [Hc Hb] Hoff He. unfold step. simpl. split.
      + by apply withinCeiling_effects, withinCeiling_handle.
      + by apply setBacked_effects, setBacked_handle.
    - split; [|by intros x ?%elem_of_empty].
      split; [by intros f ?%elem_of_nil|].
      change (uploading initialState) with (∅ : gset string).
      rewrite size_empty. lia. }
  assert (uploadingMatches (run o trace)) as Hmatch.
  { intros x. split; [apply Hback|].
    intros (f & Hf & <- & Hst). by apply Hsub. }
  assert (size (uploading (run o trace))
          = uploadingCount (stats (files (run o trace)))) as Hcount.
  { assert (uploading (run o trace)
            = list_to_set (uploadingIds (files (run o trace)))) as ->.
    { apply set_eq. intros x. rewrite elem_of_list_to_set, (Hmatch x).
      unfold uploadingIds, ids. rewrite list_elem_of_fmap.
      split.
      - intros (f & Hf & Hid & Hst). exists f. split; [done|].
        by apply list_elem_of_filter.
      - intros (f & Hid & [Hst Hf]%list_elem_of_filter). by exists f. }
    rewrite size_list_to_set.
    - unfold uploadingIds, ids. by rewrite length_fmap.
    - eapply sublist_NoDup; [apply (NoDup_ids_run o trace Hnd)|].
      unfold uploadingIds, ids. apply fmap_sublist, sublist_filter. }
  split; [done|]. split; [done|].
  unfold availableSlots. by rewrite Hcount.
Qed.

Lemma uploading_set_matches_witness :
  uploadingMatches (run defaultOptions fiveFilesTrace) ∧
  size (uploading (run defaultOptions fiveFilesTrace))
  = uploadingCount (stats (files (run defaultOptions fiveFilesTrace))) ∧
  availableSlots defaultOptions (uploading (run defaultOptions fiveFilesTrace))
  = maxConcurrent defaultOptions
    - Z.of_nat (uploadingCount (stats (files (run defaultOptions fiveFilesTrace)))).
Proof.
  apply (uploading_set_matches defaultOptions fiveFilesTrace).
  - vm_compute. discriminate.
  - apply (bool_decide_unpack _). vm_compute. exact I.
  - vm_compute. reflexivity.
  - repeat constructor.
Defined.

(** *** The set of uploading ids in every run *)

Lemma size_processLoop o now s :
  Z.of_nat (size (uploading s)) ≤ maxConcurrent o →
  Z.of_nat (size (uploading (processLoop o now s))) ≤ maxConcurrent o.
Proof.
  intros Hsize. destruct (state_processLoop o now s) as [_ ->].
  pose proof (size_union_list_to_set (uploading s)
                (ids (filesToUpload o (files s) (uploading s)))) as Hle.
  pose proof (length_filesToUpload o (files s) (uploading s) Hsize) as Hlen.
  unfold ids in Hle |- *. rewrite length_fmap in Hle. lia.
Qed.

Lemma size_handle o now e s :
  0 ≤ maxConcurrent o →
  Z.of_nat (size (uploading s)) ≤ maxConcurrent o →
  Z.of_nat (size (uploading (handle o now e s))) ≤ maxConcurrent o.
Proof.
  intros Hmax Hsize.
  assert (∀ u : gset string, u ⊆ uploading s →
            Z.of_nat (size u) ≤ maxConcurrent o) as Hsub.
  { intros u Hu%subseteq_size. lia. }
  destruct e as [newFiles|fileId|fileId deleteFile|deleteFile| | |
                 |fileId p|fileId xhr
                 |closure fileId deleteFile|closure deleteFile];
    simpl; try done.
  - unfold addFiles. by destruct (_ && _).
  - unfold retryFile. by destruct (negb _).
  - unfold removeFile. destruct (_ && _); simpl; [done|].
    apply Hsub. set_solver.
  - destruct (processingRef s); [|done]. by apply size_processLoop.
  - by case_bool_decide.
  - case_bool_decide; [|done]. unfold uploadFileSettle.
    destruct (settled _); simpl; apply Hsub; set_solver.
  - unfold removeFile. destruct (_ && _); simpl; [done|].
    apply Hsub. set_solver.
Qed.

(** X21: in every run, stopProcessing included, the set [uploading]
    never holds more than maxConcurrent ids, for a ceiling that is not
    negative: processLoop adds at most the slots it computed, and every
    other event leaves the set or shrinks it. *)
Theorem uploading_set_within_ceiling o trace :
  0 ≤ maxConcurrent o →
  Z.of_nat (size (uploading (run o trace))) ≤ maxConcurrent o.
Proof.
  intros Hmax.
  induction trace as [|[now e] trace IH] using rev_ind.
  - change (uploading (run o [])) with (∅ : gset string).
    rewrite size_empty. lia.
  - rewrite run_snoc. unfold step. simpl.
    pose proof (size_handle o now e (run o trace) Hmax IH) as Hh.
    destruct (effects_cases o now (handle o now e (run o trace))) as [-> | ->];
      [done|].
    by apply size_processLoop.
Qed.

Lemma uploading_set_within_ceiling_witness :
  Z.of_nat (size (uploading (run defaultOptions restartedTrace)))
  ≤ maxConcurrent defaultOptions.
Proof.
  apply (uploading_set_within_ceiling defaultOptions restartedTrace).
  vm_compute. discriminate.
Defined.

End QueueMore.
